(** * Schema-guided reasoning demo: a shallow embedding and its properties

    The development follows the three source files of the repository:

    - [src/vanilla_sgr/schema_demo.py]: the in-memory CMS, the action
      catalog, [dispatch], and the task loop [execute_tasks]
      (module [VanillaSGR]);
    - [src/schema_demo.py]: the tutorial skeleton with its own copy of
      [dispatch] (module [SchemaDemo]);
    - [src/common/models.py]: the schema translation
      [ensure_no_additional_properties] (module [Models]).

    Python values are modelled as follows.  Strings are [string]; Python
    [int]s are [Z]; [len] of a container is a [nat]; a [dict] used only for
    lookups (the product catalog) is a [gmap]; a [dict] whose insertion
    order is observable through [.items()] (the invoices) is an association
    list with the update-or-append semantics of Python dictionaries.
    Python [float]s are modelled by the exact rational they approximate
    ([Q]): every float the program computes is an integer sum of catalog
    prices or such a sum times an integer percentage divided by 100, and
    binary64 represents the former exactly and the latter by the nearest
    double as long as the integers involved stay below 2^53.  Magnitudes
    beyond that, where binary64 rounds or overflows, are outside the
    model. *)

From stdpp Require Import gmap strings list pretty.
From Stdlib Require Import QArith Qround.

Local Close Scope Q_scope.
Local Open Scope string_scope.
Local Open Scope list_scope.
Local Open Scope nat_scope.

(** ** Python helpers *)

Module Py.

(** Nearest integer, ties to even: the rounding mode of Python's
    [round]. *)
Definition round_half_even (q : Q) : Z :=
  let f := Qfloor q in
  match Qcompare (q - inject_Z f)%Q (1 # 2)%Q with
  | Lt => f
  | Gt => (f + 1)%Z
  | Eq => if Z.even f then f else (f + 1)%Z
  end.

(** [round(x, 2)]: the multiple of 1/100 nearest to [x], in lowest
    terms. *)
Definition round2 (x : Q) : Q :=
  Qred (inject_Z (round_half_even (x * 100)%Q) / 100)%Q.

(** An insertion-ordered dictionary with string keys: [d.get(k)],
    [d[k] = v] (in place when [k] is present, appended otherwise),
    [len(d)], and [k in d]. *)
Fixpoint get {V} (k : string) (d : list (string * V)) : option V :=
  match d with
  | [] => None
  | (k', v) :: d' => if decide (k' = k) then Some v else get k d'
  end.

Fixpoint set {V} (k : string) (v : V) (d : list (string * V))
  : list (string * V) :=
  match d with
  | [] => [(k, v)]
  | (k', v') :: d' =>
      if decide (k' = k) then (k, v) :: d' else (k', v') :: set k v d'
  end.

Definition keys {V} (d : list (string * V)) : list string := d.*1.

End Py.

(** ** The CMS data shared by both copies of the demo

    Both [schema_demo.py] files declare the same store [DB] and the same
    pydantic classes; they are embedded once. *)

Record Rule := mkRule { rule_email : string; rule_rule : string }.

Record Email := mkEmail {
  email_to : string; email_subject : string; email_message : string }.

Record Product := mkProduct { product_name : string; product_price : Z }.

Record Invoice := mkInvoice {
  inv_id : string;
  inv_email : string;
  inv_file : string;
  inv_skus : list string;
  inv_discount_amount : Q;
  inv_discount_percent : Z;
  inv_total : Q;
  inv_void : bool }.

Record Store := mkStore {
  rules : list Rule;
  invoices : list (string * Invoice);
  emails : list Email;
  products : gmap string Product }.

(** The module-level [DB] literal. *)
Definition DB : Store :=
  {| rules := [];
     invoices := [];
     emails := [];
     products :=
       <["SKU-205" := mkProduct "AGI course 101 Personal" 258]>
       (<["SKU-210" := mkProduct "AGI 101 Course Team" 1290]>
       (<["SKU-220" := mkProduct "Building AGI - Online Excercises" 315]> ∅))
  |}.

Inductive CompletionCode := completed | failed.

(** The action catalog: one constructor per pydantic class.  The [tool]
    literal of each class is the constructor itself. *)
Inductive Command :=
| SendEmail (subject message : string) (files : list string)
            (recipient_email : string)
| GetCustomerData (email : string)
| IssueInvoice (email : string) (skus : list string) (discount_percent : Z)
| CancelInvoice (invoice_id reason : string)
| CreateRule (email rule : string)
| ReportTaskCompletion (completed_steps_laconic : list string)
                       (code : CompletionCode).

(** What [dispatch] returns: one of the dictionaries it builds, a message
    string, or [None] when no [isinstance] test matches. *)
Inductive Result :=
| REmail (e : Email)
| RRule (r : Rule)
| RCustomerData (rs : list Rule) (invs : list (string * Invoice))
                (ems : list Email)
| RInvoice (inv : Invoice)
| RStr (s : string)
| RNone.

Definition invoice_id_of (n : nat) : string := "INV-" +:+ pretty n.

Definition set_void (inv : Invoice) : Invoice :=
  {| inv_id := inv_id inv; inv_email := inv_email inv;
     inv_file := inv_file inv; inv_skus := inv_skus inv;
     inv_discount_amount := inv_discount_amount inv;
     inv_discount_percent := inv_discount_percent inv;
     inv_total := inv_total inv; inv_void := true |}.

(** The pricing loop of [IssueInvoice]:
    [for sku in cmd.skus: product = DB["products"].get(sku) ...]. *)
Fixpoint price_loop (catalog : gmap string Product) (skus : list string)
    (total : Q) : string + Q :=
  match skus with
  | [] => inr total
  | sku :: rest =>
      match catalog !! sku with
      | None => inl ("Product " +:+ sku +:+ " not found")
      | Some product =>
          price_loop catalog rest (total + inject_Z (product_price product))%Q
      end
  end.

Definition with_rules (db : Store) (rs : list Rule) : Store :=
  {| rules := rs; invoices := invoices db; emails := emails db;
     products := products db |}.
Definition with_invoices (db : Store) (invs : list (string * Invoice))
  : Store :=
  {| rules := rules db; invoices := invs; emails := emails db;
     products := products db |}.
Definition with_emails (db : Store) (ems : list Email) : Store :=
  {| rules := rules db; invoices := invoices db; emails := ems;
     products := products db |}.

(** ** [src/vanilla_sgr/schema_demo.py] *)

Module VanillaSGR.

(** [dispatch(cmd)], with the global [DB] threaded through. *)
Definition dispatch (cmd : Command) (db : Store) : Result * Store :=
  match cmd with
  | SendEmail subject message _ recipient_email =>
      let email := mkEmail recipient_email subject message in
      (REmail email, with_emails db (emails db ++ [email]))
  | CreateRule email rule =>
      let r := mkRule email rule in
      (RRule r, with_rules db (rules db ++ [r]))
  | GetCustomerData addr =>
      (RCustomerData
         (filter (λ r, rule_email r = addr) (rules db))
         (filter (λ inv, inv_email inv.2 = addr) (invoices db))
         (filter (λ em, email_to em = addr) (emails db)),
       db)
  | IssueInvoice email skus discount_percent =>
      match price_loop (products db) skus 0%Q with
      | inl msg => (RStr msg, db)
      | inr total =>
          let discount :=
            Py.round2 (total * 1 * inject_Z discount_percent / 100)%Q in
          let invoice_id := invoice_id_of (length (invoices db) + 1) in
          let invoice :=
            {| inv_id := invoice_id;
               inv_email := email;
               inv_file := "/invoices" +:+ invoice_id +:+ ".pdf";
               inv_skus := skus;
               inv_discount_amount := discount;
               inv_discount_percent := discount_percent;
               inv_total := total;
               inv_void := false |} in
          (RInvoice invoice,
           with_invoices db (Py.set invoice_id invoice (invoices db)))
      end
  | CancelInvoice invoice_id _ =>
      match Py.get invoice_id (invoices db) with
      | None => (RStr ("Invoice " +:+ invoice_id +:+ " not found"), db)
      | Some invoice =>
          let invoice := set_void invoice in
          (RInvoice invoice,
           with_invoices db (Py.set invoice_id invoice (invoices db)))
      end
  | ReportTaskCompletion _ _ => (RNone, db)
  end.

(** [TEST_TASKS]. *)
Definition TEST_TASKS : list string :=
  [ "Rule: address sama@openai.com as 'The SAMA', always give him 5% discount";
    "Rule for elon@x.com. Email his invoices to finances@x.com";
    "sama@openai.com wants one of each product. Email him the invoice";
    "elon@x.com wants 2x the way sama@openai.com got. Send the invoice";
    "redo last elon@x.com invoice: use 3x discount of sama@openai.com" ].

(** [NextStep]: the decision record requested from the model. *)
Record NextStep := mkNextStep {
  current_task : string;
  plan_remaining_steps_brief : list string;
  task_completed : bool;
  function : Command }.

(** Field constraints of the catalog classes: the only annotated field is
    [discount_percent: Annotated[int, Le(50)]]. *)
Definition validate_function (cmd : Command) : bool :=
  match cmd with
  | IssueInvoice _ _ discount_percent => bool_decide (discount_percent ≤ 50)%Z
  | _ => true
  end.

(** [NextStep.model_validate(job_dict)]: [None] stands for the
    [ValidationError] pydantic raises.  The plan carries
    [MinLen(1), MaxLen(5)]. *)
Definition model_validate (job : NextStep) : option NextStep :=
  if validate_function (function job)
     && bool_decide (1 ≤ length (plan_remaining_steps_brief job))%nat
     && bool_decide (length (plan_remaining_steps_brief job) ≤ 5)%nat
  then Some job else None.

(** The system prompt is the stripped f-string with the catalog's [repr]
    spliced in. *)
Definition SYSTEM_PROMPT : string :=
  "You're a business assistant helping Anton with customer interactions.

    - Clearly report when tasks are done
    - Always send customer emails after issuing invoices (with invoices attached)
    - Be concise, especially in the emails
    - No need for payment confirmation before processing
    - Always check customer data before issuing invoices or makeing changes

    Products: {'SKU-205': {'name': 'AGI course 101 Personal', 'price': 258}, 'SKU-210': {'name': 'AGI 101 Course Team', 'price': 1290}, 'SKU-220': {'name': 'Building AGI - Online Excercises', 'price': 315}}".

(** Entries of the conversation log.  A tool message keeps the dispatch
    result itself, in place of its [json.dumps] text. *)
Inductive Message :=
| MSystem (content : string)
| MUser (content : string)
| MAssistant (id : string) (call : Command)
| MTool (content : Result) (tool_call_id : string).

(** What [completion.choices[0].message.content] holds: text that
    [json.loads] rejects, or a dictionary of the [NextStep] shape whose
    field constraints are still unchecked. *)
Inductive Response :=
| Malformed
| Parsed (job_dict : NextStep).

Inductive Exception := JSONDecodeError | ValidationError.

(** How the inner [for i in range(20)] loop ends: by [break] on a
    [ReportTaskCompletion], by exhausting the range, or by an exception
    leaving [execute_tasks]. *)
Inductive Outcome :=
| Completed (code : CompletionCode) (completed_steps_laconic : list string)
| BudgetExhausted
| Raised (e : Exception).

Record Run := mkRun {
  outcome : Outcome;
  final_log : list Message;
  final_db : Store;
  oracle_calls : nat;
  dispatches : nat }.

Definition tick (called dispatched : nat) (r : Run) : Run :=
  {| outcome := outcome r; final_log := final_log r;
     final_db := final_db r;
     oracle_calls := called + oracle_calls r;
     dispatches := dispatched + dispatches r |}.

Section TaskLoop.

(** [model_provider.chat_completion(..., messages=log, ...)]: the
    provider sees the log only. *)
Variable chat_completion : list Message → Response.

(** The body of [for i in range(20)], with [remaining] iterations left
    and [i] the current index. *)
Fixpoint steps (remaining i : nat) (log : list Message) (db : Store)
  : Run :=
  match remaining with
  | 0 => mkRun BudgetExhausted log db 0 0
  | S remaining' =>
      let step := "step_" +:+ pretty (i + 1) in
      match chat_completion log with
      | Malformed => mkRun (Raised JSONDecodeError) log db 1 0
      | Parsed job_dict =>
          match model_validate job_dict with
          | None => mkRun (Raised ValidationError) log db 1 0
          | Some job =>
              match function job with
              | ReportTaskCompletion completed_steps_laconic code =>
                  mkRun (Completed code completed_steps_laconic)
                        log db 1 0
              | call =>
                  let log := log ++ [MAssistant step call] in
                  let '(result, db) := dispatch call db in
                  let log := log ++ [MTool result step] in
                  tick 1 1 (steps remaining' (i + 1) log db)
              end
          end
      end
  end.

(** One task: a fresh log, up to 20 reasoning steps. *)
Definition run_task (task : string) (db : Store) : Run :=
  steps 20 0 [MSystem SYSTEM_PROMPT; MUser task] db.

(** [execute_tasks]: the tasks run one after another on the same
    store; an exception ends the whole function. *)
Fixpoint execute (tasks : list string) (db : Store)
  : list Run :=
  match tasks with
  | [] => []
  | task :: rest =>
      let r := run_task task db in
      match outcome r with
      | Raised _ => [r]
      | _ => r :: execute rest (final_db r)
      end
  end.

Definition execute_tasks (db : Store) : list Run :=
  execute TEST_TASKS db.

End TaskLoop.

End VanillaSGR.

(** ** [src/schema_demo.py] *)

Module SchemaDemo.

Inductive Exception := UnboundLocalError.

(** The skeleton's [dispatch].  It differs from the other copy in one
    line of the [IssueInvoice] branch,
    [discount = round(total * 1.0 * discount / 100.0, 2)], which reads the
    local [discount] before any assignment to it. *)
Definition dispatch (cmd : Command) (db : Store)
  : (Exception + Result) * Store :=
  match cmd with
  | SendEmail subject message _ recipient_email =>
      let email := mkEmail recipient_email subject message in
      (inr (REmail email), with_emails db (emails db ++ [email]))
  | CreateRule email rule =>
      let r := mkRule email rule in
      (inr (RRule r), with_rules db (rules db ++ [r]))
  | GetCustomerData addr =>
      (inr (RCustomerData
         (filter (λ r, rule_email r = addr) (rules db))
         (filter (λ inv, inv_email inv.2 = addr) (invoices db))
         (filter (λ em, email_to em = addr) (emails db))),
       db)
  | IssueInvoice email skus discount_percent =>
      match price_loop (products db) skus 0%Q with
      | inl msg => (inr (RStr msg), db)
      | inr total => (inl UnboundLocalError, db)
      end
  | CancelInvoice invoice_id _ =>
      match Py.get invoice_id (invoices db) with
      | None =>
          (inr (RStr ("Invoice " +:+ invoice_id +:+ " not found")), db)
      | Some invoice =>
          let invoice := set_void invoice in
          (inr (RInvoice invoice),
           with_invoices db (Py.set invoice_id invoice (invoices db)))
      end
  | ReportTaskCompletion _ _ => (inr RNone, db)
  end.

End SchemaDemo.

(** ** [src/common/models.py] *)

Module Models.

(** A JSON value as [model_json_schema()] returns it: dictionaries keep
    their insertion order, numbers are decimal literals. *)
Local Unset Elimination Schemes.
Inductive json :=
| JNull
| JBool (b : bool)
| JNum (q : Q)
| JStr (s : string)
| JList (items : list json)
| JDict (entries : list (string * json)).
Local Set Elimination Schemes.

(** [schema_dict.get("type") == "object" and
     "additionalProperties" not in schema_dict]. *)
Definition lacks_additional_properties (entries : list (string * json))
  : bool :=
  match Py.get "type" entries with
  | Some (JStr s) =>
      bool_decide (s = "object")
      && bool_decide (Py.get "additionalProperties" entries = None)
  | _ => false
  end.

Definition closed_entry : list (string * json) :=
  [("additionalProperties", JBool false)].

(** [ensure_no_additional_properties(schema_dict)].  The Python function
    updates its argument in place and returns nothing; the embedding
    returns the updated value.  The new key is set before the loop over
    [schema_dict.items()], which then meets it last and, its value being
    a boolean, passes over it: so it is appended after the visited
    entries. *)
Fixpoint ensure_no_additional_properties (schema_dict : json) : json :=
  match schema_dict with
  | JDict entries =>
      JDict
        (map (λ '(key, value),
           (key,
            match value with
            | JDict _ => ensure_no_additional_properties value
            | JList items =>
                JList (map (λ item,
                  match item with
                  | JDict _ => ensure_no_additional_properties item
                  | _ => item
                  end) items)
            | _ => value
            end)) entries
         ++ (if lacks_additional_properties entries
             then closed_entry else []))
  | _ => schema_dict
  end.

(** The translation in the words of the specification: every dictionary
    of type ["object"] without the key, at any nesting depth, lists
    included, receives [additionalProperties: false]; nothing else
    changes. *)
Fixpoint close_every_object (j : json) : json :=
  match j with
  | JDict entries =>
      JDict
        (map (λ '(key, value), (key, close_every_object value)) entries
         ++ (if lacks_additional_properties entries
             then closed_entry else []))
  | JList items => JList (map close_every_object items)
  | _ => j
  end.

(** No list is an item of another list. *)
Fixpoint lists_hold_no_list (j : json) : bool :=
  match j with
  | JDict entries =>
      forallb (λ '(_, value), lists_hold_no_list value) entries
  | JList items =>
      forallb (λ item,
        match item with
        | JList _ => false
        | _ => lists_hold_no_list item
        end) items
  | _ => true
  end.

(** The two provider classes; each wraps an [OpenAI] client built from the
    API key (and, for OpenRouter, the fixed base URL). *)
Inductive ModelProvider :=
| OpenAIProvider (api_key : string)
| OpenRouterProvider (api_key : string).

Inductive ValueError := mkValueError (message : string).

Section Environment.

(** [str.lower], a Python builtin, taken as it is. *)
Variable lower : string → string.

(** [os.environ] once [load_dotenv(".env")] has run. *)
Variable environ : gmap string string.

(** [os.getenv(key)] and [os.getenv(key, default)]. *)
Definition getenv (key : string) : option string := environ !! key.
Definition getenv_default (key default : string) : string :=
  from_option (λ value, value) default (environ !! key).

(** [create_model_provider(provider_type)]; [if not api_key] holds for a
    missing variable and for an empty one. *)
Definition create_model_provider (provider_type : option string)
  : ValueError + ModelProvider :=
  let provider_type :=
    match provider_type with
    | None => lower (getenv_default "MODEL_PROVIDER" "openai")
    | Some provider_type => provider_type
    end in
  if decide (lower provider_type = "openai") then
    match getenv "OPENAI_API_KEY" with
    | Some api_key =>
        if decide (api_key = "")
        then inl (mkValueError
                    "OPENAI_API_KEY not found in environment variables")
        else inr (OpenAIProvider api_key)
    | None =>
        inl (mkValueError "OPENAI_API_KEY not found in environment variables")
    end
  else if decide (lower provider_type = "openrouter") then
    match getenv "OPENROUTER_API_KEY" with
    | Some api_key =>
        if decide (api_key = "")
        then inl (mkValueError
                    "OPENROUTER_API_KEY not found in environment variables")
        else inr (OpenRouterProvider api_key)
    | None =>
        inl (mkValueError
               "OPENROUTER_API_KEY not found in environment variables")
    end
  else inl (mkValueError ("Unsupported provider: " +:+ provider_type)).

(** [get_model_name(provider_type)]. *)
Definition get_model_name (provider_type : option string) : string :=
  let provider_type :=
    match provider_type with
    | None => lower (getenv_default "MODEL_PROVIDER" "openai")
    | Some provider_type => provider_type
    end in
  if decide (lower provider_type = "openai") then
    getenv_default "OPENAI_MODEL" "gpt-4o"
  else if decide (lower provider_type = "openrouter") then
    getenv_default "OPENROUTER_MODEL" "openai/gpt-4o"
  else "gpt-4o".

End Environment.

End Models.

(** ** Notions used to state the properties *)

(** The sum of the catalog unit prices of a list of skus. *)
Fixpoint list_price (catalog : gmap string Product) (skus : list string) : Z :=
  match skus with
  | [] => 0
  | sku :: rest =>
      (from_option product_price 0 (catalog !! sku)
       + list_price catalog rest)%Z
  end.

(** The invoices of a store that has only ever been updated by [dispatch],
    starting from no invoice: the keys are ["INV-1"], ..., ["INV-n"], in
    this order. *)
Definition numbered (invs : list (string * Invoice)) : Prop :=
  Py.keys invs = invoice_id_of <$> seq 1 (length invs).

(** Dispatching a sequence of actions, one after the other. *)
Fixpoint dispatch_all (cmds : list Command) (db : Store)
  : list (Command * Result) * Store :=
  match cmds with
  | [] => ([], db)
  | cmd :: rest =>
      let '(result, db) := VanillaSGR.dispatch cmd db in
      let '(trace, db) := dispatch_all rest db in
      ((cmd, result) :: trace, db)
  end.

(** The ids of the invoices the [IssueInvoice] actions of a trace
    created, in the order of their creation. *)
Fixpoint issued_ids (trace : list (Command * Result)) : list string :=
  match trace with
  | [] => []
  | (IssueInvoice _ _ _, RInvoice inv) :: rest => inv_id inv :: issued_ids rest
  | _ :: rest => issued_ids rest
  end.

(** A sku the catalog of a store prices. *)
Abbreviation in_catalog db := (λ sku : string, is_Some (products db !! sku)).

Definition is_report (cmd : Command) : bool :=
  match cmd with
  | ReportTaskCompletion _ _ => true
  | _ => false
  end.

(** A provider that never answers with a [ReportTaskCompletion]. *)
Definition never_reports (chat : list VanillaSGR.Message → VanillaSGR.Response)
  : Prop :=
  ∀ log job, chat log = VanillaSGR.Parsed job → is_report (VanillaSGR.function job) = false.

(** A provider whose every answer is a decision that parses and
    validates. *)
Definition always_decodes (chat : list VanillaSGR.Message → VanillaSGR.Response)
  : Prop :=
  ∀ log, ∃ job,
    chat log = VanillaSGR.Parsed job
    ∧ VanillaSGR.model_validate job = Some job.

(** A log entry that is no tool call, or a call whose fields meet their
    constraints. *)
Definition valid_call (m : VanillaSGR.Message) : Prop :=
  match m with
  | VanillaSGR.MAssistant _ call => VanillaSGR.validate_function call = true
  | _ => True
  end.

(** What the loop of [ensure_no_additional_properties] does with one
    value of the dictionary it goes through. *)
Definition visit_value (value : Models.json) : Models.json :=
  match value with
  | Models.JDict _ => Models.ensure_no_additional_properties value
  | Models.JList items =>
      Models.JList (map (λ item,
        match item with
        | Models.JDict _ => Models.ensure_no_additional_properties item
        | _ => item
        end) items)
  | _ => value
  end.

(** Every invoice is stored under its own id. *)
Definition keyed (invs : list (string * Invoice)) : Prop :=
  Forall (λ entry, inv_id entry.2 = entry.1) invs.

(** The log entries a run writes for a trace of dispatched calls, the
    first of them made at loop index [i]. *)
Fixpoint transcript (i : nat) (trace : list (Command * Result))
  : list VanillaSGR.Message :=
  match trace with
  | [] => []
  | (call, result) :: rest =>
      VanillaSGR.MAssistant ("step_" +:+ pretty (i + 1)) call
      :: VanillaSGR.MTool result ("step_" +:+ pretty (i + 1))
      :: transcript (i + 1) rest
  end.

Definition is_raised (o : VanillaSGR.Outcome) : bool :=
  match o with
  | VanillaSGR.Raised _ => true
  | _ => false
  end.

(** Every dictionary of type ["object"] in a schema, at any depth, has the
    key [additionalProperties]. *)
Fixpoint objects_closed (j : Models.json) : bool :=
  match j with
  | Models.JDict entries =>
      negb (Models.lacks_additional_properties entries)
      && forallb (λ '(_, value), objects_closed value) entries
  | Models.JList items => forallb objects_closed items
  | _ => true
  end.

(** Lower-casing of ASCII text, an instance of [str.lower] for the
    provider names. *)
Definition ascii_lower (c : Ascii.ascii) : Ascii.ascii :=
  let n := Ascii.nat_of_ascii c in
  if (65 <=? n) && (n <=? 90) then Ascii.ascii_of_nat (n + 32) else c.

Fixpoint lower_ascii (s : string) : string :=
  match s with
  | EmptyString => EmptyString
  | String c s => String (ascii_lower c) (lower_ascii s)
  end.

(** A call the task loop hands to [dispatch]: validated, and not the
    final report. *)
Definition dispatchable (call : Command) : Prop :=
  is_report call = false ∧ VanillaSGR.validate_function call = true.

(** A transform of schemas that never produces a string from anything
    but that string. *)
Definition keeps_strings (f : Models.json → Models.json) : Prop :=
  ∀ v s, f v = Models.JStr s → v = Models.JStr s.

(** The provider name the two functions of [models.py] go by: the
    argument, or the lower-cased [MODEL_PROVIDER] variable, ["openai"]
    when it is unset. *)
Definition provider_name (lower : string → string)
    (environ : gmap string string) (provider_type : option string) : string :=
  match provider_type with
  | None => lower (Models.getenv_default environ "MODEL_PROVIDER" "openai")
  | Some provider_type => provider_type
  end.

(** ** Dictionaries *)

Section Dict.
Context {V : Type}.
Implicit Types (d : list (string * V)) (k : string) (v : V).

Lemma get_None d k : Py.get k d = None ↔ k ∉ Py.keys d.
Proof.
  unfold Py.keys. induction d as [|[k' v'] d IH]; simpl.
  - split; [intros _; apply not_elem_of_nil | done].
  - rewrite not_elem_of_cons. case_decide.
    + split; [done | by intros [? _]].
    + rewrite IH. split; [by split | by intros [_ ?]].
Qed.

Lemma get_Some_elem d k v : Py.get k d = Some v → (k, v) ∈ d.
Proof.
  induction d as [|[k' v'] d IH]; simpl; [done|].
  case_decide; intros ?; simplify_eq; [left | right; auto].
Qed.

Lemma set_fresh d k v : k ∉ Py.keys d → Py.set k v d = d ++ [(k, v)].
Proof.
  unfold Py.keys. induction d as [|[k' v'] d IH]; simpl; [done|].
  rewrite not_elem_of_cons. intros [??]. case_decide; [done|].
  by rewrite IH.
Qed.

Lemma keys_set_present d k v :
  is_Some (Py.get k d) → Py.keys (Py.set k v d) = Py.keys d.
Proof.
  unfold Py.keys. induction d as [|[k' v'] d IH]; simpl.
  - by intros [? ?].
  - case_decide; simpl; [by subst | intros ?; f_equal; by apply IH].
Qed.

Lemma length_set_present d k v :
  is_Some (Py.get k d) → length (Py.set k v d) = length d.
Proof.
  intros H. apply keys_set_present with (v := v) in H.
  unfold Py.keys in H. by rewrite <-(length_fmap fst), H, length_fmap.
Qed.

Lemma get_set_eq d k v : Py.get k (Py.set k v d) = Some v.
Proof.
  induction d as [|[k' v'] d IH]; simpl.
  - by rewrite decide_True.
  - case_decide; simpl; [by rewrite decide_True | by rewrite decide_False].
Qed.

Lemma get_set_ne d k k' v : k ≠ k' → Py.get k' (Py.set k v d) = Py.get k' d.
Proof.
  intros Hne. induction d as [|[k0 v0] d IH]; simpl.
  - by rewrite decide_False.
  - destruct (decide (k0 = k)) as [->|]; simpl.
    + by rewrite !decide_False.
    + by rewrite IH.
Qed.

Lemma keys_set_sub d k v : Py.keys d `prefix_of` Py.keys (Py.set k v d).
Proof.
  destruct (Py.get k d) as [v'|] eqn:Hget.
  - by rewrite keys_set_present.
  - apply get_None in Hget. rewrite set_fresh by done.
    unfold Py.keys. rewrite fmap_app. by apply prefix_app_r.
Qed.

End Dict.

(** ** Rounding *)

Lemma round_half_even_comp (p q : Q) :
  (p == q)%Q → Py.round_half_even p = Py.round_half_even q.
Proof.
  intros Hpq. unfold Py.round_half_even.
  rewrite (Qfloor_comp _ _ Hpq).
  assert (p - inject_Z (Qfloor q) == q - inject_Z (Qfloor q))%Q as ->
    by (by rewrite Hpq).
  done.
Qed.

Lemma round_half_even_Z (z : Z) : Py.round_half_even (inject_Z z) = z.
Proof.
  unfold Py.round_half_even. rewrite Qfloor_Z.
  assert (inject_Z z - inject_Z z == 0)%Q as -> by ring.
  done.
Qed.

(** Rounding to two places leaves a number of hundredths as it is. *)
Lemma round2_hundredths (x : Q) (n : Z) :
  (x * 100 == inject_Z n)%Q → (Py.round2 x == x)%Q.
Proof.
  intros Hx. unfold Py.round2.
  rewrite Qred_correct, (round_half_even_comp _ _ Hx), round_half_even_Z.
  rewrite <-Hx. field.
Qed.

Lemma round2_comp (p q : Q) : (p == q)%Q → Py.round2 p = Py.round2 q.
Proof.
  intros Hpq. unfold Py.round2. apply Qred_complete.
  rewrite (round_half_even_comp (p * 100) (q * 100)); [done|].
  by rewrite Hpq.
Qed.

(** ** The pricing loop *)

Section PriceLoop.
Variable catalog : gmap string Product.

Lemma inject_Z_add (a b : Z) :
  (inject_Z a + inject_Z b)%Q = inject_Z (a + b).
Proof. unfold Qplus, inject_Z; simpl. f_equal. lia. Qed.

Lemma price_loop_found (skus : list string) (acc : Z) :
  Forall (λ sku, is_Some (catalog !! sku)) skus →
  price_loop catalog skus (inject_Z acc)
  = inr (inject_Z (acc + list_price catalog skus)).
Proof.
  intros Hall. revert acc.
  induction Hall as [|sku rest [product Hsku] _ IH]; intros acc; simpl.
  - by rewrite Z.add_0_r.
  - rewrite Hsku; simpl. rewrite inject_Z_add, IH. do 2 f_equal. lia.
Qed.

Lemma price_loop_missing (skus : list string) (total : Q) :
  ¬ Forall (λ sku, is_Some (catalog !! sku)) skus →
  ∃ before sku after,
    skus = before ++ sku :: after
    ∧ Forall (λ sku, is_Some (catalog !! sku)) before
    ∧ catalog !! sku = None
    ∧ price_loop catalog skus total
      = inl ("Product " +:+ sku +:+ " not found").
Proof.
  revert total. induction skus as [|sku rest IH]; intros total Hnot.
  - destruct Hnot. constructor.
  - simpl. destruct (catalog !! sku) as [product|] eqn:Hsku.
    + destruct (IH (total + inject_Z (product_price product))%Q)
        as (before & missing & after & -> & Hbefore & Hmissing & Hloop).
      { intros Hrest. apply Hnot. constructor; [by eexists | done]. }
      exists (sku :: before), missing, after.
      repeat split; [|done..]. constructor; [by eexists | done].
    + exists [], sku, rest. repeat split; [constructor | done].
Qed.

Lemma price_loop_complete (skus : list string) (total total' : Q) :
  price_loop catalog skus total = inr total' →
  Forall (λ sku, is_Some (catalog !! sku)) skus.
Proof.
  revert total. induction skus as [|sku rest IH]; intros total; simpl.
  - constructor.
  - destruct (catalog !! sku) eqn:Hsku; [|done].
    intros Hloop. constructor; [by eexists | by eapply IH].
Qed.

End PriceLoop.

(** ** Issuing invoices *)



(** C4.  When some listed sku is absent from the catalog, [dispatch] of an
    [IssueInvoice] returns the message naming the first absent sku and
    leaves the store as it was: no invoice is created and the number of
    invoices is unchanged. *)
Theorem issue_invoice_unknown_sku db email skus discount_percent absent :
  absent ∈ skus →
  products db !! absent = None →
  ∃ before sku after,
    skus = before ++ sku :: after
    ∧ Forall (in_catalog db) before
    ∧ products db !! sku = None
    ∧ VanillaSGR.dispatch (IssueInvoice email skus discount_percent) db
      = (RStr ("Product " +:+ sku +:+ " not found"), db)
    ∧ length
        (invoices
           (VanillaSGR.dispatch
              (IssueInvoice email skus discount_percent) db).2)
      = length (invoices db).
Proof.
  intros Hin Habsent.
  destruct (price_loop_missing (products db) skus 0%Q)
    as (before & sku & after & Hskus & Hbefore & Hsku & Hloop).
  { intros Hall. rewrite Forall_forall in Hall.
    destruct (Hall absent Hin) as [? Hsome]. congruence. }
  exists before, sku, after. unfold VanillaSGR.dispatch. rewrite Hloop.
  by repeat split.
Qed.

Lemma issue_invoice_unknown_sku_witness :
  ∃ before sku after,
    ["SKU-205"; "SKU-999"; "SKU-998"] = before ++ sku :: after
    ∧ Forall (in_catalog DB) before
    ∧ products DB !! sku = None
    ∧ VanillaSGR.dispatch
        (IssueInvoice "elon@x.com" ["SKU-205"; "SKU-999"; "SKU-998"] 0) DB
      = (RStr ("Product " +:+ sku +:+ " not found"), DB)
    ∧ length
        (invoices
           (VanillaSGR.dispatch
              (IssueInvoice "elon@x.com"
                 ["SKU-205"; "SKU-999"; "SKU-998"] 0) DB).2)
      = length (invoices DB).
Proof.
  apply (issue_invoice_unknown_sku DB "elon@x.com"
           ["SKU-205"; "SKU-999"; "SKU-998"] 0%Z "SKU-998").
  - by do 2 right; left.
  - reflexivity.
Defined.

(** ** Canceling invoices *)

Lemma set_void_idemp (inv : Invoice) : set_void (set_void inv) = set_void inv.
Proof. reflexivity. Qed.

Lemma set_set {V} (d : list (string * V)) (k : string) (v v' : V) :
  Py.set k v (Py.set k v' d) = Py.set k v d.
Proof.
  induction d as [|[k0 v0] d IH]; simpl.
  - by rewrite decide_True.
  - case_decide; simpl.
    + by rewrite decide_True.
    + rewrite decide_False by done. by rewrite IH.
Qed.



(** ** Querying customer data *)


(** ** Invoice numbering *)

Global Instance invoice_id_of_inj : Inj (=) (=) invoice_id_of.
Proof.
  intros m n Heq. unfold invoice_id_of in Heq. simpl in Heq.
  injection Heq as Heq. by apply (inj pretty).
Qed.

Lemma numbered_initial : numbered (invoices DB).
Proof. reflexivity. Qed.

Lemma numbered_fresh invs :
  numbered invs → invoice_id_of (length invs + 1) ∉ Py.keys invs.
Proof.
  unfold numbered. intros -> (n & Heq & Hn)%list_elem_of_fmap.
  apply (inj invoice_id_of) in Heq. apply elem_of_seq in Hn. lia.
Qed.

Lemma numbered_snoc invs inv :
  numbered invs →
  numbered (invs ++ [(invoice_id_of (length invs + 1), inv)]).
Proof.
  unfold numbered, Py.keys. intros Hkeys.
  rewrite fmap_app, length_app, Hkeys. simpl.
  rewrite Nat.add_1_r, seq_S, fmap_app. done.
Qed.

(** What one [dispatch] does to the invoices of a numbered store: either
    their number and numbering stay and no id is issued, or the action is
    an [IssueInvoice] that appends one invoice under the next number. *)
Lemma dispatch_invoices cmd db :
  numbered (invoices db) →
  let (result, db') := VanillaSGR.dispatch cmd db in
  (length (invoices db') = length (invoices db)
   ∧ numbered (invoices db')
   ∧ ∀ trace, issued_ids ((cmd, result) :: trace) = issued_ids trace)
  ∨ (∃ invoice,
       result = RInvoice invoice
       ∧ inv_id invoice = invoice_id_of (length (invoices db) + 1)
       ∧ invoices db' = invoices db ++ [(inv_id invoice, invoice)]
       ∧ ∀ trace,
           issued_ids ((cmd, result) :: trace)
           = inv_id invoice :: issued_ids trace).
Proof.
  intros Hnum.
  destruct cmd as [? ? ? ?|?|email skus dp|invoice_id ?|? ?|? ?]; simpl;
    try (left; by repeat split).
  - destruct (price_loop (products db) skus 0%Q) as [msg|total].
    + left. by repeat split.
    + right. eexists. split; [reflexivity|]. simpl.
      split; [reflexivity|]. split; [|done].
      by apply set_fresh, numbered_fresh.
  - destruct (Py.get invoice_id (invoices db)) as [invoice|] eqn:Hget.
    + left. simpl. split; [|split; [|done]].
      * by apply length_set_present.
      * unfold numbered.
        rewrite keys_set_present, length_set_present by done. exact Hnum.
    + left. by repeat split.
Qed.

(** C3.  Along any sequence of dispatched actions, run on a store whose
    invoices are numbered (as they are in the initial [DB] and after every
    [dispatch]), the ids of the invoices that [IssueInvoice] creates are
    the next numbers in turn: with [n] invoices at the start they are
    ["INV-(n+1)"], ["INV-(n+2)"], ..., so from the initial store ["INV-1"],
    ["INV-2"], ...; no id is issued twice and none repeats an id already
    in the store, whatever cancellations happen in between. *)
Theorem invoice_ids_sequential cmds db :
  numbered (invoices db) →
  let ids := issued_ids (dispatch_all cmds db).1 in
  ids = invoice_id_of <$> seq (length (invoices db) + 1) (length ids)
  ∧ NoDup (Py.keys (invoices db) ++ ids)
  ∧ numbered (invoices (dispatch_all cmds db).2)
  ∧ length (invoices (dispatch_all cmds db).2)
    = length (invoices db) + length ids
  ∧ (invoices db = [] → ids = invoice_id_of <$> seq 1 (length ids)).
Proof.
  intros Hnum ids.
  assert (ids = invoice_id_of <$> seq (length (invoices db) + 1) (length ids)
          ∧ numbered (invoices (dispatch_all cmds db).2)
          ∧ length (invoices (dispatch_all cmds db).2)
            = length (invoices db) + length ids) as (Hids & Hnum' & Hlen).
  { subst ids. revert db Hnum.
    induction cmds as [|cmd rest IH]; intros db Hnum.
    - simpl. by rewrite Nat.add_0_r.
    - simpl. pose proof (dispatch_invoices cmd db Hnum) as Hstep.
      destruct (VanillaSGR.dispatch cmd db) as [result db1].
      destruct Hstep as [(Hlen & Hnum1 & Hissued)
                        |(invoice & -> & Hid & Hinvs & Hissued)].
      + specialize (IH db1 Hnum1).
        destruct (dispatch_all rest db1) as [trace db2]. simpl in *.
        rewrite Hissued, <-Hlen. exact IH.
      + assert (numbered (invoices db1)) as Hnum1.
        { rewrite Hinvs, Hid. by apply numbered_snoc. }
        specialize (IH db1 Hnum1).
        destruct (dispatch_all rest db1) as [trace db2]. simpl in *.
        rewrite Hissued. simpl.
        destruct IH as (IHids & IHnum & IHlen).
        rewrite Hinvs, length_app in IHids, IHlen. simpl in *.
        split; [|split; [done|lia]].
        rewrite Hid. f_equal.
        rewrite IHids at 1. do 2 f_equal. lia. }
  repeat split; [done| |done|done|].
  - rewrite Hids, Hnum, <-fmap_app.
    apply (NoDup_fmap_2 _).
    rewrite Nat.add_1_r, <-seq_app. apply NoDup_seq.
  - intros Hempty. rewrite Hempty in Hids. exact Hids.
Qed.

Lemma invoice_ids_sequential_witness :
  numbered (invoices DB)
  ∧ issued_ids
      (dispatch_all
         [IssueInvoice "sama@openai.com" ["SKU-205"] 5;
          CancelInvoice "INV-1" "wrong product";
          IssueInvoice "sama@openai.com" ["SKU-404"] 5;
          IssueInvoice "sama@openai.com" ["SKU-210"] 5;
          CancelInvoice "INV-2" "wrong discount";
          IssueInvoice "elon@x.com" ["SKU-210"; "SKU-210"] 15] DB).1
    = ["INV-1"; "INV-2"; "INV-3"].
Proof.
  split; [exact numbered_initial|].
  destruct (invoice_ids_sequential
    [IssueInvoice "sama@openai.com" ["SKU-205"] 5;
     CancelInvoice "INV-1" "wrong product";
     IssueInvoice "sama@openai.com" ["SKU-404"] 5;
     IssueInvoice "sama@openai.com" ["SKU-210"] 5;
     CancelInvoice "INV-2" "wrong discount";
     IssueInvoice "elon@x.com" ["SKU-210"; "SKU-210"] 15] DB
    numbered_initial) as (_ & _ & _ & _ & Hids).
  rewrite (Hids eq_refl). reflexivity.
Defined.

(** ** Nothing is removed *)

(** C8.  Whatever the action and the store, [dispatch] leaves the product
    catalog identical, keeps every rule and every email in place (new ones
    are appended), and keeps every invoice id in place; in a store whose
    invoices are numbered, which [dispatch] preserves, every invoice stays
    under its id with its contents, apart from a [void] flag that a
    cancellation sets. *)
Theorem dispatch_keeps_entities cmd db :
  let db' := (VanillaSGR.dispatch cmd db).2 in
  products db' = products db
  ∧ rules db `prefix_of` rules db'
  ∧ emails db `prefix_of` emails db'
  ∧ Py.keys (invoices db) `prefix_of` Py.keys (invoices db')
  ∧ (numbered (invoices db) →
     numbered (invoices db')
     ∧ ∀ id invoice,
         Py.get id (invoices db) = Some invoice →
         Py.get id (invoices db') = Some invoice
         ∨ Py.get id (invoices db') = Some (set_void invoice)).
Proof.
  assert (∀ invs : list (string * Invoice),
            numbered invs →
            numbered invs
            ∧ ∀ id invoice,
                Py.get id invs = Some invoice →
                Py.get id invs = Some invoice
                ∨ Py.get id invs = Some (set_void invoice)) as Hsame
    by (intros invs Hnum; split; [done | by left]).
  destruct cmd as [? ? ? ?|?|email skus dp|invoice_id ?|? ?|? ?]; simpl.
  - do 4 (split; [done || by apply prefix_app_r|]). apply Hsame.
  - do 4 (split; [done|]). apply Hsame.
  - destruct (price_loop (products db) skus 0%Q) as [msg|total]; simpl.
    { do 4 (split; [done|]). apply Hsame. }
    do 3 (split; [done|]). split; [apply keys_set_sub|].
    intros Hnum. split.
    + rewrite set_fresh by by apply numbered_fresh.
      by apply numbered_snoc.
    + intros id invoice Hget. left. rewrite get_set_ne; [done|].
      intros <-. apply numbered_fresh, get_None in Hnum. congruence.
  - destruct (Py.get invoice_id (invoices db)) as [canceled|] eqn:Hget; simpl.
    2: { do 4 (split; [done|]). apply Hsame. }
    do 3 (split; [done|]). split; [apply keys_set_sub|].
    intros Hnum. split.
    + unfold numbered. by rewrite keys_set_present, length_set_present.
    + intros id invoice Hid. destruct (decide (invoice_id = id)) as [->|].
      * right. rewrite get_set_eq. congruence.
      * left. by rewrite get_set_ne.
  - do 4 (split; [done || by apply prefix_app_r|]). apply Hsame.
  - do 4 (split; [done|]). apply Hsame.
Qed.

Lemma dispatch_keeps_entities_witness :
  let db :=
    (dispatch_all [IssueInvoice "elon@x.com" ["SKU-220"] 0;
                   IssueInvoice "elon@x.com" ["SKU-210"] 0] DB).2 in
  let db' := (VanillaSGR.dispatch (CancelInvoice "INV-1" "duplicate") db).2 in
  numbered (invoices db)
  ∧ Py.keys (invoices db) = ["INV-1"; "INV-2"]
  ∧ numbered (invoices db')
  ∧ ∀ id invoice,
      Py.get id (invoices db) = Some invoice →
      Py.get id (invoices db') = Some invoice
      ∨ Py.get id (invoices db') = Some (set_void invoice).
Proof.
  intros db db'.
  assert (numbered (invoices db)) as Hnum by reflexivity.
  split; [exact Hnum|]. split; [reflexivity|].
  destruct (dispatch_keeps_entities (CancelInvoice "INV-1" "duplicate") db)
    as (_ & _ & _ & _ & Hinv).
  apply (Hinv Hnum).
Defined.

(** ** The task loop *)

Section Steps.
Import VanillaSGR.
Variable chat : list Message → Response.

(* The loop is analysed without looking into [dispatch]. *)
Local Opaque dispatch.

Lemma model_validate_Some job job' :
  model_validate job = Some job' →
  job' = job
  ∧ validate_function (function job) = true
  ∧ 1 ≤ length (plan_remaining_steps_brief job) ≤ 5.
Proof.
  unfold model_validate.
  destruct (validate_function (function job)); [|done]. simpl.
  do 2 (case_bool_decide; [|done]). simpl.
  intros [= <-]. by repeat split.
Qed.

Lemma steps_bounds remaining i log db :
  dispatches (steps chat remaining i log db)
  ≤ oracle_calls (steps chat remaining i log db)
  ∧ oracle_calls (steps chat remaining i log db) ≤ remaining.
Proof.
  revert i log db. induction remaining as [|remaining IH]; intros i log db.
  - simpl. lia.
  - simpl. destruct (chat log) as [|job_dict]; [simpl; lia|].
    destruct (model_validate job_dict) as [job|]; [|simpl; lia].
    destruct (function job) eqn:Hcall; try (simpl; lia);
      match goal with
      | |- context [dispatch ?call db] =>
          destruct (dispatch call db) as [result db']
      end;
      match goal with
      | |- context [steps chat remaining ?i' ?log' ?db1] =>
          specialize (IH i' log' db1)
      end; simpl; lia.
Qed.

Lemma steps_not_completed remaining i log db code summary :
  never_reports chat →
  outcome (steps chat remaining i log db) ≠ Completed code summary.
Proof.
  intros Hnever. revert i log db.
  induction remaining as [|remaining IH]; intros i log db; [done|].
  simpl. destruct (chat log) as [|job_dict] eqn:Hchat; [done|].
  destruct (model_validate job_dict) as [job|] eqn:Hvalid; [|done].
  apply model_validate_Some in Hvalid as [-> _].
  specialize (Hnever log job_dict Hchat).
  destruct (function job_dict) eqn:Hcall; try done;
    match goal with
    | |- context [dispatch ?call db] =>
        destruct (dispatch call db) as [result db']
    end; apply IH.
Qed.

Lemma steps_exhausted remaining i log db :
  never_reports chat →
  always_decodes chat →
  outcome (steps chat remaining i log db) = BudgetExhausted
  ∧ oracle_calls (steps chat remaining i log db) = remaining
  ∧ dispatches (steps chat remaining i log db) = remaining.
Proof.
  intros Hnever Hdecodes. revert i log db.
  induction remaining as [|remaining IH]; intros i log db; [done|].
  simpl. destruct (Hdecodes log) as (job & Hchat & Hvalid).
  rewrite Hchat, Hvalid. specialize (Hnever log job Hchat).
  destruct (function job) eqn:Hcall; try done;
    match goal with
    | |- context [dispatch ?call db] =>
        destruct (dispatch call db) as [result db']
    end;
    match goal with
    | |- context [steps chat remaining ?i' ?log' ?db1] =>
        destruct (IH i' log' db1) as (Hout & Hcalls & Hdisp)
    end; simpl; by rewrite Hout, Hcalls, Hdisp.
Qed.

Lemma steps_log_valid remaining i log db :
  Forall valid_call log →
  Forall valid_call (final_log (steps chat remaining i log db)).
Proof.
  revert i log db. induction remaining as [|remaining IH];
    intros i log db Hlog; [done|].
  simpl. destruct (chat log) as [|job_dict]; [done|].
  destruct (model_validate job_dict) as [job|] eqn:Hvalid; [|done].
  apply model_validate_Some in Hvalid as (-> & Hcall & _).
  destruct (function job_dict) eqn:Hfn; try done;
    match goal with
    | |- context [dispatch ?call db] =>
        destruct (dispatch call db) as [result db']
    end; simpl; apply IH;
    rewrite !Forall_app; repeat split; try done;
    by repeat constructor.
Qed.

End Steps.

Transparent VanillaSGR.dispatch.



(** ** Validation of the discount *)

(** C2, amended.  Every [IssueInvoice] that passes validation has a
    [discount_percent] of at most 50: 51 and everything above is rejected,
    50 and everything below, negative values included, is accepted; a
    rejected decision ends the run with a validation error before anything
    is dispatched, the store and the log being as they were, and every
    call a run adds to its log has passed validation. *)
Theorem discount_percent_at_most_50 :
  (∀ job job',
      VanillaSGR.model_validate job = Some job' →
      job' = job
      ∧ ∀ email skus discount_percent,
          VanillaSGR.function job' = IssueInvoice email skus discount_percent →
          (discount_percent ≤ 50)%Z)
  ∧ (∀ job email skus discount_percent,
      VanillaSGR.function job = IssueInvoice email skus discount_percent →
      (50 < discount_percent)%Z →
      VanillaSGR.model_validate job = None)
  ∧ (∀ current_task plan task_completed email skus discount_percent,
      (discount_percent ≤ 50)%Z →
      1 ≤ length plan ≤ 5 →
      VanillaSGR.model_validate
        (VanillaSGR.mkNextStep current_task plan task_completed
           (IssueInvoice email skus discount_percent))
      = Some (VanillaSGR.mkNextStep current_task plan task_completed
                (IssueInvoice email skus discount_percent)))
  ∧ (∀ chat remaining i log db job,
      chat log = VanillaSGR.Parsed job →
      VanillaSGR.model_validate job = None →
      VanillaSGR.steps chat (S remaining) i log db
      = VanillaSGR.mkRun (VanillaSGR.Raised VanillaSGR.ValidationError)
          log db 1 0)
  ∧ (∀ chat task db,
      Forall valid_call
        (VanillaSGR.final_log (VanillaSGR.run_task chat task db))).
Proof.
  split; [|split; [|split; [|split]]].
  - intros job job' (-> & Hcall & _)%model_validate_Some.
    split; [done|]. intros email skus dp Hfn.
    rewrite Hfn in Hcall. simpl in Hcall. by apply bool_decide_eq_true in Hcall.
  - intros job email skus dp Hfn Hdp. unfold VanillaSGR.model_validate.
    rewrite Hfn. simpl. rewrite bool_decide_eq_false_2 by lia. done.
  - intros current_task plan task_completed email skus dp Hdp [Hmin Hmax].
    unfold VanillaSGR.model_validate. simpl.
    by rewrite !bool_decide_eq_true_2.
  - intros chat remaining i log db job Hchat Hvalid. simpl.
    by rewrite Hchat, Hvalid.
  - intros chat task db. apply steps_log_valid. by repeat constructor.
Qed.

Lemma discount_percent_at_most_50_witness :
  VanillaSGR.model_validate
    (VanillaSGR.mkNextStep "invoice elon" ["issue invoice"] false
       (IssueInvoice "elon@x.com" ["SKU-210"] 51))
  = None
  ∧ VanillaSGR.model_validate
      (VanillaSGR.mkNextStep "invoice elon" ["issue invoice"] false
         (IssueInvoice "elon@x.com" ["SKU-210"] 50))
    = Some (VanillaSGR.mkNextStep "invoice elon" ["issue invoice"] false
              (IssueInvoice "elon@x.com" ["SKU-210"] 50))
  ∧ VanillaSGR.run_task
      (λ _, VanillaSGR.Parsed
              (VanillaSGR.mkNextStep "invoice elon" ["issue invoice"] false
                 (IssueInvoice "elon@x.com" ["SKU-210"] 51)))
      "invoice elon" DB
    = VanillaSGR.mkRun (VanillaSGR.Raised VanillaSGR.ValidationError)
        [VanillaSGR.MSystem VanillaSGR.SYSTEM_PROMPT;
         VanillaSGR.MUser "invoice elon"] DB 1 0.
Proof.
  destruct discount_percent_at_most_50 as (_ & Hreject & Haccept & Hstop & _).
  split; [|split].
  - apply (Hreject _ "elon@x.com" ["SKU-210"] 51%Z); [reflexivity | lia].
  - apply Haccept; [lia | simpl; lia].
  - apply Hstop with
      (job := VanillaSGR.mkNextStep "invoice elon" ["issue invoice"] false
                (IssueInvoice "elon@x.com" ["SKU-210"] 51));
      [reflexivity|].
    apply (Hreject _ "elon@x.com" ["SKU-210"] 51%Z); [reflexivity | lia].
Defined.

(** C2 as stated fails on negative percentages: a decision asking for a
    discount of -10 percent passes validation, is dispatched, and yields an
    invoice with a negative discount amount. *)
Lemma negative_discount_accepted :
  let job :=
    VanillaSGR.mkNextStep "invoice elon" ["issue invoice"] false
      (IssueInvoice "elon@x.com" ["SKU-205"] (-10)) in
  VanillaSGR.model_validate job = Some job
  ∧ ¬ (0 ≤ -10 ≤ 50)%Z
  ∧ (VanillaSGR.dispatch (VanillaSGR.function job) DB).1
    = RInvoice (mkInvoice "INV-1" "elon@x.com" "/invoicesINV-1.pdf"
                  ["SKU-205"] (-129 # 5)%Q (-10) (258 # 1)%Q false)
  ∧ ¬ (∀ job job',
         VanillaSGR.model_validate job = Some job' →
         ∀ email skus discount_percent,
           VanillaSGR.function job' = IssueInvoice email skus discount_percent →
           (0 ≤ discount_percent ≤ 50)%Z).
Proof.
  intros job. split; [reflexivity|]. split; [lia|]. split; [reflexivity|].
  intros Hclaim.
  specialize (Hclaim job job eq_refl "elon@x.com" ["SKU-205"] (-10)%Z eq_refl).
  lia.
Qed.

(** ** The two copies of [dispatch] *)

(** C10.  The two copies of [dispatch] are not equivalent: on an
    [IssueInvoice] whose skus are all in the catalog, the copy in
    [src/schema_demo.py] raises [UnboundLocalError] and creates nothing,
    where the copy in [src/vanilla_sgr/schema_demo.py] creates and returns
    the invoice.  On every other input the two return the same result and
    leave the same store. *)
Theorem skeleton_dispatch_diverges :
  SchemaDemo.dispatch (IssueInvoice "sama@openai.com" ["SKU-205"] 5) DB
  = (inl SchemaDemo.UnboundLocalError, DB)
  ∧ VanillaSGR.dispatch (IssueInvoice "sama@openai.com" ["SKU-205"] 5) DB
    = (RInvoice (mkInvoice "INV-1" "sama@openai.com" "/invoicesINV-1.pdf"
                   ["SKU-205"] (129 # 10)%Q 5 (258 # 1)%Q false),
       with_invoices DB
         [("INV-1",
           mkInvoice "INV-1" "sama@openai.com" "/invoicesINV-1.pdf"
             ["SKU-205"] (129 # 10)%Q 5 (258 # 1)%Q false)])
  ∧ ∀ cmd db,
      SchemaDemo.dispatch cmd db
      = (inr (VanillaSGR.dispatch cmd db).1, (VanillaSGR.dispatch cmd db).2)
      ∨ ∃ email skus discount_percent,
          cmd = IssueInvoice email skus discount_percent
          ∧ Forall (in_catalog db) skus
          ∧ SchemaDemo.dispatch cmd db = (inl SchemaDemo.UnboundLocalError, db).
Proof.
  split; [reflexivity|]. split; [reflexivity|].
  intros cmd db.
  destruct cmd as [? ? ? ?|?|email skus dp|invoice_id ?|? ?|? ?]; simpl;
    try (by left); [|left; by destruct (Py.get invoice_id (invoices db))].
  destruct (price_loop (products db) skus 0%Q) as [msg|total] eqn:Hloop.
  - by left.
  - right. exists email, skus, dp. repeat split.
    by eapply price_loop_complete.
Qed.

(** ** The schema translation *)

Section Json.
Import Models.

Lemma json_ind (P : json → Prop) :
  P JNull →
  (∀ b, P (JBool b)) →
  (∀ q, P (JNum q)) →
  (∀ s, P (JStr s)) →
  (∀ items, Forall P items → P (JList items)) →
  (∀ entries, Forall (λ entry, P entry.2) entries → P (JDict entries)) →
  ∀ j, P j.
Proof.
  intros Hnull Hbool Hnum Hstr Hlist Hdict.
  fix IH 1. intros [|b|q|s|items|entries].
  - exact Hnull.
  - apply Hbool.
  - apply Hnum.
  - apply Hstr.
  - apply Hlist. induction items as [|item items IHitems];
      constructor; [apply IH | apply IHitems].
  - apply Hdict. induction entries as [|[key value] entries IHentries];
      constructor; [apply IH | apply IHentries].
Qed.

Lemma ensure_dict entries :
  ensure_no_additional_properties (JDict entries)
  = JDict (map (λ '(key, value), (key, visit_value value)) entries
           ++ (if lacks_additional_properties entries
               then closed_entry else [])).
Proof. reflexivity. Qed.

Lemma map_agree {A B} (f g : A → B) (P : A → Prop) (c : A → bool) l :
  Forall P l →
  forallb c l = true →
  (∀ x, P x → c x = true → f x = g x) →
  map f l = map g l.
Proof.
  intros HP Hc Hfg. induction HP as [|x l Hx _ IH]; simpl in *; [done|].
  apply andb_true_iff in Hc as [Hcx Hcl]. f_equal; auto.
Qed.

(** Where no list holds a list, visiting a value closes every object in
    it. *)
Lemma visit_value_closes j :
  lists_hold_no_list j = true → visit_value j = close_every_object j.
Proof.
  induction j as [| | | |items IH|entries IH] using json_ind;
    intros Hflat; try reflexivity.
  - simpl in *. f_equal. eapply map_agree; [exact IH | exact Hflat |].
    simpl. intros item IHitem Hitem.
    destruct item; try reflexivity; [done | by apply IHitem].
  - change (visit_value (JDict entries))
      with (ensure_no_additional_properties (JDict entries)).
    rewrite ensure_dict. simpl in *. do 2 f_equal.
    eapply map_agree; [exact IH | exact Hflat |].
    simpl. intros [key value] IHvalue Hvalue. f_equal. by apply IHvalue.
Qed.

End Json.




(** * Further properties of the code *)

(** ** Writing to the store, then querying it *)

Lemma filter_singleton {A} (P : A → Prop) `{∀ x, Decision (P x)} (x : A) :
  filter P [x] = if decide (P x) then [x] else [].
Proof. reflexivity. Qed.

(** X1.  A rule saved by [CreateRule] is what a later [GetCustomerData]
    for the same address returns last among the rules; for any other
    address, and for invoices and emails, the answer is as before. *)
Theorem create_rule_then_query db email rule addr rs invs ems :
  (VanillaSGR.dispatch (GetCustomerData addr) db).1
  = RCustomerData rs invs ems →
  (VanillaSGR.dispatch (GetCustomerData addr)
     (VanillaSGR.dispatch (CreateRule email rule) db).2).1
  = RCustomerData
      (rs ++ if decide (email = addr) then [mkRule email rule] else [])
      invs ems.
Proof.
  simpl. intros [= <- <- <-]. f_equal.
  by rewrite filter_app, filter_singleton.
Qed.

Lemma create_rule_then_query_witness :
  (VanillaSGR.dispatch (GetCustomerData "sama@openai.com") DB).1
  = RCustomerData [] [] []
  ∧ (VanillaSGR.dispatch (GetCustomerData "sama@openai.com")
       (VanillaSGR.dispatch
          (CreateRule "sama@openai.com" "5% discount") DB).2).1
    = RCustomerData [mkRule "sama@openai.com" "5% discount"] [] []
  ∧ (VanillaSGR.dispatch (GetCustomerData "sama@openai.com")
       (VanillaSGR.dispatch
          (CreateRule "elon@x.com" "cc finances@x.com") DB).2).1
    = RCustomerData [] [] [].
Proof.
  split; [reflexivity|]. split.
  - exact (create_rule_then_query DB "sama@openai.com" "5% discount"
             "sama@openai.com" [] [] [] eq_refl).
  - exact (create_rule_then_query DB "elon@x.com" "cc finances@x.com"
             "sama@openai.com" [] [] [] eq_refl).
Defined.

(** X2.  An email recorded by [SendEmail] is what a later
    [GetCustomerData] for the recipient returns last among the emails, with
    its subject and message; the attached file names are not recorded, and
    for any other address the answer is as before. *)
Theorem send_email_then_query db subject message files recipient addr
    rs invs ems :
  (VanillaSGR.dispatch (GetCustomerData addr) db).1
  = RCustomerData rs invs ems →
  (VanillaSGR.dispatch (GetCustomerData addr)
     (VanillaSGR.dispatch
        (SendEmail subject message files recipient) db).2).1
  = RCustomerData rs invs
      (ems ++ if decide (recipient = addr)
              then [mkEmail recipient subject message] else []).
Proof.
  simpl. intros [= <- <- <-]. f_equal.
  by rewrite filter_app, filter_singleton.
Qed.

Lemma send_email_then_query_witness :
  (VanillaSGR.dispatch (GetCustomerData "finances@x.com") DB).1
  = RCustomerData [] [] []
  ∧ (VanillaSGR.dispatch (GetCustomerData "finances@x.com")
       (VanillaSGR.dispatch
          (SendEmail "Invoice" "Attached." ["/invoicesINV-1.pdf"]
             "finances@x.com") DB).2).1
    = RCustomerData [] [] [mkEmail "finances@x.com" "Invoice" "Attached."].
Proof.
  split; [reflexivity|].
  exact (send_email_then_query DB "Invoice" "Attached."
           ["/invoicesINV-1.pdf"] "finances@x.com" "finances@x.com"
           [] [] [] eq_refl).
Defined.

(** The invoice an [IssueInvoice] returns is the one it built, stored
    under its id. *)
Lemma issue_invoice_stored db email skus discount_percent invoice :
  (VanillaSGR.dispatch (IssueInvoice email skus discount_percent) db).1
  = RInvoice invoice →
  inv_id invoice = invoice_id_of (length (invoices db) + 1)
  ∧ inv_email invoice = email
  ∧ inv_void invoice = false
  ∧ (VanillaSGR.dispatch (IssueInvoice email skus discount_percent) db).2
    = with_invoices db (Py.set (inv_id invoice) invoice (invoices db)).
Proof.
  simpl. destruct (price_loop (products db) skus 0%Q) as [msg|total];
    [done|]. simpl. by intros [= <-].
Qed.

(** X3.  In a store with numbered invoices, an invoice created by
    [IssueInvoice] is what a later [GetCustomerData] for its address
    returns last among the invoices, under its id; for any other address
    the answer is as before. *)
Theorem issue_invoice_then_query db email skus discount_percent addr
    invoice rs invs ems :
  numbered (invoices db) →
  (VanillaSGR.dispatch (IssueInvoice email skus discount_percent) db).1
  = RInvoice invoice →
  (VanillaSGR.dispatch (GetCustomerData addr) db).1
  = RCustomerData rs invs ems →
  (VanillaSGR.dispatch (GetCustomerData addr)
     (VanillaSGR.dispatch (IssueInvoice email skus discount_percent) db).2).1
  = RCustomerData rs
      (invs ++ if decide (email = addr)
               then [(inv_id invoice, invoice)] else [])
      ems.
Proof.
  intros Hnum Hissue.
  destruct (issue_invoice_stored _ _ _ _ _ Hissue)
    as (Hid & Hemail & _ & ->).
  simpl. intros [= <- <- <-]. f_equal.
  rewrite set_fresh by (rewrite Hid; by apply numbered_fresh).
  rewrite filter_app, filter_singleton. simpl. by rewrite Hemail.
Qed.

Lemma issue_invoice_then_query_witness :
  let issue := IssueInvoice "elon@x.com" ["SKU-220"] 0 in
  numbered (invoices DB)
  ∧ ∃ invoice,
      (VanillaSGR.dispatch issue DB).1 = RInvoice invoice
      ∧ (VanillaSGR.dispatch (GetCustomerData "elon@x.com")
           (VanillaSGR.dispatch issue DB).2).1
        = RCustomerData [] [("INV-1", invoice)] [].
Proof.
  intros issue. split; [exact numbered_initial|].
  eexists. split; [reflexivity|].
  exact (issue_invoice_then_query DB "elon@x.com" ["SKU-220"] 0%Z
           "elon@x.com" _ [] [] [] numbered_initial eq_refl eq_refl).
Defined.



(** ** Invariants of the invoices *)

Lemma keyed_set invs id invoice :
  keyed invs → inv_id invoice = id → keyed (Py.set id invoice invs).
Proof.
  unfold keyed. intros Hkeyed Hid.
  induction Hkeyed as [|[k v] invs Hkv Hinvs IH]; simpl.
  - by constructor.
  - case_decide; constructor; done.
Qed.

Lemma keyed_get invs id invoice :
  keyed invs → Py.get id invs = Some invoice → inv_id invoice = id.
Proof.
  intros Hkeyed Hget%get_Some_elem. unfold keyed in Hkeyed.
  rewrite Forall_forall in Hkeyed. exact (Hkeyed _ Hget).
Qed.

Lemma dispatch_keyed cmd db :
  keyed (invoices db) → keyed (invoices (VanillaSGR.dispatch cmd db).2).
Proof.
  intros Hkeyed.
  destruct cmd as [? ? ? ?|?|email skus dp|invoice_id ?|? ?|? ?]; simpl;
    try done.
  - destruct (price_loop (products db) skus 0%Q); simpl; [done|].
    by apply keyed_set.
  - destruct (Py.get invoice_id (invoices db)) as [invoice|] eqn:Hget;
      simpl; [|done].
    apply keyed_set; [done|]. simpl. by eapply keyed_get.
Qed.

(** X5.  Every stored invoice carries the id it is stored under: this
    holds in the initial store, every sequence of dispatched actions keeps
    it, and so the invoice a [CancelInvoice] returns has the id that was
    asked for. *)
Theorem stored_ids_match_keys cmds db :
  keyed (invoices db) →
  let db' := (dispatch_all cmds db).2 in
  keyed (invoices db')
  ∧ ∀ invoice_id reason invoice,
      (VanillaSGR.dispatch (CancelInvoice invoice_id reason) db').1
      = RInvoice invoice →
      inv_id invoice = invoice_id.
Proof.
  intros Hkeyed db'.
  assert (keyed (invoices db')) as Hkeyed'.
  { subst db'. revert db Hkeyed.
    induction cmds as [|cmd rest IH]; intros db Hkeyed; [done|].
    simpl. pose proof (dispatch_keyed cmd db Hkeyed) as Hstep.
    destruct (VanillaSGR.dispatch cmd db) as [result db1].
    specialize (IH db1 Hstep).
    by destruct (dispatch_all rest db1). }
  split; [done|]. intros invoice_id reason invoice. simpl.
  destruct (Py.get invoice_id (invoices db')) as [stored|] eqn:Hget;
    simpl; [|done].
  intros [= <-]. simpl. by eapply keyed_get.
Qed.

Lemma stored_ids_match_keys_witness :
  let db :=
    (dispatch_all [IssueInvoice "elon@x.com" ["SKU-220"] 0;
                   IssueInvoice "sama@openai.com" ["SKU-205"] 5;
                   CancelInvoice "INV-1" "duplicate"] DB).2 in
  keyed (invoices DB)
  ∧ keyed (invoices db)
  ∧ ∃ invoice,
      (VanillaSGR.dispatch (CancelInvoice "INV-2" "typo") db).1
      = RInvoice invoice
      ∧ inv_id invoice = "INV-2".
Proof.
  intros db.
  assert (keyed (invoices DB)) as Hkeyed by constructor.
  destruct (stored_ids_match_keys
              [IssueInvoice "elon@x.com" ["SKU-220"] 0;
               IssueInvoice "sama@openai.com" ["SKU-205"] 5;
               CancelInvoice "INV-1" "duplicate"] DB Hkeyed)
    as [Hkeyed' Hcancel].
  split; [exact Hkeyed|]. split; [exact Hkeyed'|].
  eexists. split; [reflexivity|].
  exact (Hcancel "INV-2" "typo" _ eq_refl).
Defined.

(** One [dispatch] on a numbered store keeps every invoice under its id,
    unchanged or with [void] set. *)
Lemma dispatch_invoice_kept cmd db id invoice :
  numbered (invoices db) →
  Py.get id (invoices db) = Some invoice →
  numbered (invoices (VanillaSGR.dispatch cmd db).2)
  ∧ (Py.get id (invoices (VanillaSGR.dispatch cmd db).2) = Some invoice
     ∨ Py.get id (invoices (VanillaSGR.dispatch cmd db).2)
       = Some (set_void invoice)).
Proof.
  intros Hnum Hget.
  destruct cmd as [? ? ? ?|?|email skus dp|invoice_id ?|? ?|? ?]; simpl;
    try (split; [done | by left]).
  - destruct (price_loop (products db) skus 0%Q) as [msg|total]; simpl;
      [split; [done | by left]|].
    split.
    + rewrite set_fresh by by apply numbered_fresh. by apply numbered_snoc.
    + left. rewrite get_set_ne; [done|].
      intros <-. apply numbered_fresh, get_None in Hnum. congruence.
  - destruct (Py.get invoice_id (invoices db)) as [canceled|] eqn:Hcancel;
      simpl; [|split; [done | by left]].
    split.
    + unfold numbered. by rewrite keys_set_present, length_set_present.
    + destruct (decide (invoice_id = id)) as [->|].
      * right. rewrite get_set_eq. congruence.
      * left. by rewrite get_set_ne.
Qed.

Lemma set_void_voided invoice :
  inv_void invoice = true → set_void invoice = invoice.
Proof. destruct invoice; simpl. by intros ->. Qed.

(** X6.  In a store with numbered invoices, whatever actions are
    dispatched afterwards, an invoice stays under its id with all its
    fields, except that [void] may have been set; an invoice that is void
    stays exactly as it is, so a cancellation is never undone. *)
Theorem invoices_persist cmds db id invoice :
  numbered (invoices db) →
  Py.get id (invoices db) = Some invoice →
  let db' := (dispatch_all cmds db).2 in
  (Py.get id (invoices db') = Some invoice
   ∨ Py.get id (invoices db') = Some (set_void invoice))
  ∧ (inv_void invoice = true → Py.get id (invoices db') = Some invoice).
Proof.
  intros Hnum Hget db'. subst db'.
  assert (Py.get id (invoices (dispatch_all cmds db).2) = Some invoice
          ∨ Py.get id (invoices (dispatch_all cmds db).2)
            = Some (set_void invoice)) as Hkept.
  { revert db invoice Hnum Hget.
    induction cmds as [|cmd rest IH]; intros db invoice Hnum Hget;
      [by left|].
    simpl. destruct (dispatch_invoice_kept cmd db id invoice Hnum Hget)
      as [Hnum1 Hstep].
    destruct (VanillaSGR.dispatch cmd db) as [result db1]. simpl in *.
    destruct Hstep as [Hsame|Hvoid].
    - specialize (IH db1 invoice Hnum1 Hsame).
      by destruct (dispatch_all rest db1).
    - specialize (IH db1 (set_void invoice) Hnum1 Hvoid).
      rewrite set_void_idemp in IH.
      destruct (dispatch_all rest db1). simpl in *. right. by destruct IH. }
  split; [done|]. intros Hvoid.
  rewrite (set_void_voided _ Hvoid) in Hkept. by destruct Hkept.
Qed.

Lemma invoices_persist_witness :
  let db :=
    (dispatch_all [IssueInvoice "elon@x.com" ["SKU-220"] 0;
                   CancelInvoice "INV-1" "duplicate"] DB).2 in
  let later :=
    [IssueInvoice "elon@x.com" ["SKU-220"] 0;
     CancelInvoice "INV-1" "again";
     IssueInvoice "elon@x.com" ["SKU-210"] 50] in
  numbered (invoices db)
  ∧ ∃ invoice,
      Py.get "INV-1" (invoices db) = Some invoice
      ∧ inv_void invoice = true
      ∧ Py.get "INV-1" (invoices (dispatch_all later db).2) = Some invoice.
Proof.
  intros db later.
  assert (numbered (invoices db)) as Hnum by reflexivity.
  split; [exact Hnum|]. eexists. split; [reflexivity|].
  split; [reflexivity|].
  exact (proj2 (invoices_persist later db "INV-1" _ Hnum eq_refl) eq_refl).
Defined.

(** ** More on pricing *)

(** What a successful [IssueInvoice] says about its input and output. *)
Lemma issue_invoice_result db email skus discount_percent invoice :
  (VanillaSGR.dispatch (IssueInvoice email skus discount_percent) db).1
  = RInvoice invoice →
  Forall (in_catalog db) skus
  ∧ inv_skus invoice = skus
  ∧ inv_discount_percent invoice = discount_percent
  ∧ inv_total invoice = inject_Z (list_price (products db) skus)
  ∧ inv_discount_amount invoice
    = Py.round2 (inject_Z (list_price (products db) skus)
                 * inject_Z discount_percent / 100)%Q
  ∧ (inv_discount_amount invoice
     == inject_Z (list_price (products db) skus * discount_percent) / 100)%Q.
Proof.
  simpl. destruct (price_loop (products db) skus 0%Q) as [msg|total]
    eqn:Hloop; [done|].
  pose proof (price_loop_complete _ _ _ _ Hloop) as Hall.
  pose proof (price_loop_found (products db) skus 0 Hall) as Hfound.
  change (inject_Z 0) with 0%Q in Hfound. rewrite Z.add_0_l in Hfound.
  rewrite Hloop in Hfound. injection Hfound as ->.
  simpl. intros [= <-]. simpl. do 4 (split; [done|]). split.
  - apply round2_comp. field.
  - rewrite (round2_hundredths _
               (list_price (products db) skus * discount_percent)).
    + rewrite inject_Z_mult. field.
    + rewrite inject_Z_mult. field.
Qed.


Lemma list_price_nonneg (catalog : gmap string Product) skus :
  (∀ sku product,
     catalog !! sku = Some product → (0 ≤ product_price product)%Z) →
  (0 ≤ list_price catalog skus)%Z.
Proof.
  intros Hprices. induction skus as [|sku rest IH]; simpl; [done|].
  destruct (catalog !! sku) as [product|] eqn:Hsku; simpl; [|lia].
  specialize (Hprices sku product Hsku). lia.
Qed.



Lemma list_price_perm (catalog : gmap string Product) skus skus' :
  skus ≡ₚ skus' → list_price catalog skus = list_price catalog skus'.
Proof. induction 1; simpl; lia. Qed.



(** ** More on validation *)



(** ** More on the task loop *)

Lemma dispatch_grows cmd db :
  products (VanillaSGR.dispatch cmd db).2 = products db
  ∧ rules db `prefix_of` rules (VanillaSGR.dispatch cmd db).2
  ∧ emails db `prefix_of` emails (VanillaSGR.dispatch cmd db).2
  ∧ Py.keys (invoices db)
    `prefix_of` Py.keys (invoices (VanillaSGR.dispatch cmd db).2).
Proof.
  destruct cmd as [? ? ? ?|?|email skus dp|invoice_id ?|? ?|? ?]; simpl;
    try (repeat split; done || by apply prefix_app_r).
  - destruct (price_loop (products db) skus 0%Q); simpl;
      repeat split; done || apply keys_set_sub.
  - destruct (Py.get invoice_id (invoices db)); simpl;
      repeat split; done || apply keys_set_sub.
Qed.

Lemma dispatch_all_grows cmds db :
  products (dispatch_all cmds db).2 = products db
  ∧ rules db `prefix_of` rules (dispatch_all cmds db).2
  ∧ emails db `prefix_of` emails (dispatch_all cmds db).2
  ∧ Py.keys (invoices db)
    `prefix_of` Py.keys (invoices (dispatch_all cmds db).2)
  ∧ (numbered (invoices db) → numbered (invoices (dispatch_all cmds db).2))
  ∧ (keyed (invoices db) → keyed (invoices (dispatch_all cmds db).2)).
Proof.
  revert db. induction cmds as [|cmd rest IH]; intros db; [done|].
  simpl. pose proof (dispatch_grows cmd db) as (Hp & Hr & He & Hk).
  pose proof (dispatch_invoices cmd db) as Hnum.
  pose proof (dispatch_keyed cmd db) as Hkeyed.
  destruct (VanillaSGR.dispatch cmd db) as [result db1]. simpl in *.
  destruct (IH db1) as (Hp' & Hr' & He' & Hk' & Hnum' & Hkeyed').
  destruct (dispatch_all rest db1) as [trace db2]. simpl in *.
  split; [congruence|]. split; [by etrans|]. split; [by etrans|].
  split; [by etrans|]. split; [|auto].
  intros Hdb. apply Hnum'. destruct (Hnum Hdb)
    as [(_ & Hdb1 & _)|(invoice & _ & Hid & Hinvs & _)]; [done|].
  rewrite Hinvs, Hid. by apply numbered_snoc.
Qed.

Section Runs.
Import VanillaSGR.
Variable chat : list Message → Response.

Local Opaque dispatch.

Lemma steps_transcript remaining i log db :
  ∃ calls,
    final_log (steps chat remaining i log db)
    = log ++ transcript i (dispatch_all calls db).1
    ∧ final_db (steps chat remaining i log db) = (dispatch_all calls db).2
    ∧ dispatches (steps chat remaining i log db) = length calls
    ∧ Forall dispatchable calls.
Proof.
  revert i log db. induction remaining as [|remaining IH]; intros i log db.
  { exists []. simpl. by rewrite app_nil_r. }
  assert (∃ calls : list Command,
            log = log ++ transcript i (dispatch_all calls db).1
            ∧ db = (dispatch_all calls db).2
            ∧ 0 = length calls ∧ Forall dispatchable calls) as Hstop.
  { exists []. simpl. by rewrite app_nil_r. }
  simpl. destruct (chat log) as [|job_dict]; [exact Hstop|].
  destruct (model_validate job_dict) as [job|] eqn:Hvalid; [|exact Hstop].
  apply model_validate_Some in Hvalid as (-> & Hcall & _).
  destruct (function job_dict) eqn:Hfn; try exact Hstop;
    match goal with
    | |- context [dispatch ?call db] =>
        destruct (dispatch call db) as [result db'] eqn:Hdispatch;
        match goal with
        | |- context [steps chat remaining ?i' ?log' db'] =>
            destruct (IH i' log' db') as (calls & Hlog & Hdb & Hn & Hcalls);
            exists (call :: calls)
        end
    end;
    simpl; rewrite Hdispatch;
    destruct (dispatch_all calls db') as [trace db'']; simpl in *;
    rewrite Hlog, Hdb, Hn, <-!app_assoc; simpl;
    do 3 (split; [done|]);
    by constructor.
Qed.

Lemma steps_outcome remaining i log db :
  let run := steps chat remaining i log db in
  match outcome run with
  | Completed code summary =>
      ∃ job,
        chat (final_log run) = Parsed job
        ∧ model_validate job = Some job
        ∧ function job = ReportTaskCompletion summary code
        ∧ oracle_calls run = S (dispatches run)
  | Raised JSONDecodeError =>
      chat (final_log run) = Malformed
      ∧ oracle_calls run = S (dispatches run)
  | Raised ValidationError =>
      (∃ job, chat (final_log run) = Parsed job ∧ model_validate job = None)
      ∧ oracle_calls run = S (dispatches run)
  | BudgetExhausted =>
      oracle_calls run = remaining ∧ dispatches run = remaining
  end.
Proof.
  revert i log db. induction remaining as [|remaining IH]; intros i log db;
    [done|].
  simpl. destruct (chat log) as [|job_dict] eqn:Hchat; [done|].
  destruct (model_validate job_dict) as [job|] eqn:Hvalid;
    [|simpl; split; [by eexists|done]].
  pose proof Hvalid as (-> & _)%model_validate_Some.
  destruct (function job_dict) eqn:Hfn;
    try (simpl; by eexists);
    match goal with
    | |- context [dispatch ?call db] =>
        destruct (dispatch call db) as [result db'];
        match goal with
        | |- context [steps chat remaining ?i' ?log' db'] =>
            specialize (IH i' log' db'); simpl in IH; simpl;
            destruct (outcome (steps chat remaining i' log' db'))
              as [code summary| |[]]
        end
    end;
    try (destruct IH as (job & ? & ? & ? & ->); by eexists);
    try (destruct IH as [-> ->]; done);
    try (destruct IH as [? ->]; done).
Qed.

Lemma steps_report remaining i log db job summary code :
  chat log = Parsed job →
  model_validate job = Some job →
  function job = ReportTaskCompletion summary code →
  steps chat (S remaining) i log db
  = mkRun (Completed code summary) log db 1 0.
Proof. intros Hchat Hvalid Hfn. simpl. by rewrite Hchat, Hvalid, Hfn. Qed.

End Runs.

Transparent VanillaSGR.dispatch.



(** X13.  When the provider's first answer is a valid decision to report
    completion, the run ends at once as completed with the reported code
    and summary: one provider call, nothing dispatched, the store and the
    log as they were. *)
Theorem report_ends_run chat task db job summary code :
  chat [VanillaSGR.MSystem VanillaSGR.SYSTEM_PROMPT; VanillaSGR.MUser task]
  = VanillaSGR.Parsed job →
  VanillaSGR.function job = ReportTaskCompletion summary code →
  1 ≤ length (VanillaSGR.plan_remaining_steps_brief job) ≤ 5 →
  VanillaSGR.run_task chat task db
  = VanillaSGR.mkRun (VanillaSGR.Completed code summary)
      [VanillaSGR.MSystem VanillaSGR.SYSTEM_PROMPT; VanillaSGR.MUser task]
      db 1 0.
Proof.
  intros Hchat Hfn Hplan. unfold VanillaSGR.run_task.
  apply (steps_report chat 19 0 _ db job); [done| |done].
  unfold VanillaSGR.model_validate. rewrite Hfn. simpl.
  by rewrite !bool_decide_eq_true_2 by lia.
Qed.

Lemma report_ends_run_witness :
  let chat := λ _ : list VanillaSGR.Message,
    VanillaSGR.Parsed
      (VanillaSGR.mkNextStep "nothing to do" ["report"] true
         (ReportTaskCompletion ["checked the request"] completed)) in
  VanillaSGR.run_task chat "say hello" DB
  = VanillaSGR.mkRun
      (VanillaSGR.Completed completed ["checked the request"])
      [VanillaSGR.MSystem VanillaSGR.SYSTEM_PROMPT;
       VanillaSGR.MUser "say hello"]
      DB 1 0.
Proof.
  intros chat.
  apply (report_ends_run chat "say hello" DB
           (VanillaSGR.mkNextStep "nothing to do" ["report"] true
              (ReportTaskCompletion ["checked the request"] completed))
           ["checked the request"] completed);
    [reflexivity | reflexivity | simpl; lia].
Defined.

(** X14.  A task run, whatever the provider answers, leaves the product
    catalog identical, keeps every rule, email and invoice id in place
    (new ones come after them), and keeps the invoices numbered and stored
    under their own ids. *)
Theorem run_task_keeps_store chat task db :
  let db' := VanillaSGR.final_db (VanillaSGR.run_task chat task db) in
  products db' = products db
  ∧ rules db `prefix_of` rules db'
  ∧ emails db `prefix_of` emails db'
  ∧ Py.keys (invoices db) `prefix_of` Py.keys (invoices db')
  ∧ (numbered (invoices db) → numbered (invoices db'))
  ∧ (keyed (invoices db) → keyed (invoices db')).
Proof.
  unfold VanillaSGR.run_task.
  destruct (steps_transcript chat 20 0
    [VanillaSGR.MSystem VanillaSGR.SYSTEM_PROMPT; VanillaSGR.MUser task] db)
    as (calls & _ & Hdb & _).
  cbv zeta. rewrite Hdb. apply dispatch_all_grows.
Qed.

Lemma run_task_keeps_store_witness :
  let chat := λ log : list VanillaSGR.Message,
    VanillaSGR.Parsed
      (VanillaSGR.mkNextStep "invoice elon" ["issue"; "email"] false
         (if decide (length log < 6)
          then IssueInvoice "elon@x.com" ["SKU-210"] 10
          else SendEmail "Invoice" "Attached." [] "elon@x.com")) in
  let db' := VanillaSGR.final_db (VanillaSGR.run_task chat "invoice" DB) in
  numbered (invoices DB)
  ∧ keyed (invoices DB)
  ∧ products db' = products DB
  ∧ numbered (invoices db')
  ∧ keyed (invoices db')
  ∧ length (invoices db') = 2
  ∧ length (emails db') = 18.
Proof.
  intros chat db'.
  assert (keyed (invoices DB)) as Hkeyed by constructor.
  destruct (run_task_keeps_store chat "invoice" DB)
    as (Hproducts & _ & _ & _ & Hnum & Hkey).
  split; [exact numbered_initial|]. split; [exact Hkeyed|].
  split; [exact Hproducts|]. split; [exact (Hnum numbered_initial)|].
  split; [exact (Hkey Hkeyed)|]. split; vm_compute; reflexivity.
Defined.

(** ** Running several tasks *)

Section Execute.
Import VanillaSGR.
Variable chat : list Message → Response.

Local Opaque run_task.

Lemma execute_cons task rest db :
  execute chat (task :: rest) db
  = run_task chat task db
    :: (if is_raised (outcome (run_task chat task db))
        then [] else execute chat rest (final_db (run_task chat task db))).
Proof.
  simpl. by destruct (outcome (run_task chat task db)).
Qed.

Lemma execute_spec tasks db :
  let runs := execute chat tasks db in
  length runs ≤ length tasks
  ∧ (∀ k run,
       runs !! k = Some run →
       ∃ task,
         tasks !! k = Some task
         ∧ run = run_task chat task
                   (match k with
                    | 0 => db
                    | S k' => from_option final_db db (runs !! k')
                    end))
  ∧ (∀ k run,
       runs !! k = Some run →
       is_raised (outcome run) = true →
       length runs = S k)
  ∧ (length runs < length tasks →
     ∃ run, last runs = Some run ∧ is_raised (outcome run) = true).
Proof.
  revert db. induction tasks as [|task rest IH]; intros db.
  { simpl. repeat split; try done. lia. }
  intros runs. subst runs. rewrite execute_cons.
  destruct (is_raised (outcome (run_task chat task db))) eqn:Hraised.
  - simpl. split; [lia|]. split; [|split].
    + intros [|k] run Hk; [|done]. injection Hk as <-. by exists task.
    + intros [|k] run Hk; [done|done].
    + intros _. by eexists.
  - destruct (IH (final_db (run_task chat task db)))
      as (Hlen & Hruns & Hlast & Hshort).
    set (runs := execute chat rest (final_db (run_task chat task db))) in *.
    simpl. split; [lia|]. split; [|split].
    + intros [|k] run Hk.
      * injection Hk as <-. by exists task.
      * simpl in Hk. destruct (Hruns k run Hk) as (task' & Htask & ->).
        exists task'. split; [done|]. f_equal.
        destruct k as [|k]; [done|]. simpl.
        destruct (runs !! k) eqn:Hprev; [done|].
        apply lookup_ge_None in Hprev. apply lookup_lt_Some in Hk. lia.
    + intros [|k] run Hk Hrun.
      * injection Hk as <-. congruence.
      * simpl in Hk. by rewrite (Hlast k run Hk Hrun).
    + intros Hlt. destruct Hshort as (run & Hrun & Hraise); [lia|].
      exists run. split; [|done].
      destruct runs; [done|]. by rewrite last_cons, Hrun.
Qed.

End Execute.

Transparent VanillaSGR.run_task.

(** X15.  [execute_tasks] runs the tasks in order, each with a log of its
    own that starts from the system prompt and the task, and each on the
    store the previous run left.  A run that raises is the last one: the
    tasks after it are not run, and no task is skipped for another
    reason. *)
Theorem execute_in_order chat tasks db :
  let runs := VanillaSGR.execute chat tasks db in
  length runs ≤ length tasks
  ∧ (∀ k run,
       runs !! k = Some run →
       ∃ task,
         tasks !! k = Some task
         ∧ run = VanillaSGR.run_task chat task
                   (match k with
                    | 0 => db
                    | S k' => from_option VanillaSGR.final_db db (runs !! k')
                    end)
         ∧ [VanillaSGR.MSystem VanillaSGR.SYSTEM_PROMPT;
            VanillaSGR.MUser task]
           `prefix_of` VanillaSGR.final_log run)
  ∧ (∀ k run,
       runs !! k = Some run →
       is_raised (VanillaSGR.outcome run) = true →
       length runs = S k)
  ∧ (length runs < length tasks →
     ∃ run,
       last runs = Some run ∧ is_raised (VanillaSGR.outcome run) = true).
Proof.
  destruct (execute_spec chat tasks db) as (Hlen & Hruns & Hlast & Hshort).
  cbv zeta. split; [done|]. split; [|by split].
  intros k run Hk. destruct (Hruns k run Hk) as (task & Htask & Hrun).
  exists task. do 2 (split; [done|]).
  rewrite Hrun. unfold VanillaSGR.run_task.
  destruct (steps_transcript chat 20 0
    [VanillaSGR.MSystem VanillaSGR.SYSTEM_PROMPT; VanillaSGR.MUser task]
    (match k with
     | 0 => db
     | S k' =>
         from_option VanillaSGR.final_db db
           (VanillaSGR.execute chat tasks db !! k')
     end)) as (calls & -> & _).
  by apply prefix_app_r.
Qed.

Lemma execute_in_order_witness :
  let chat := λ log : list VanillaSGR.Message,
    match log with
    | [_; VanillaSGR.MUser "second"] => VanillaSGR.Malformed
    | [_; _] =>
        VanillaSGR.Parsed
          (VanillaSGR.mkNextStep "remember" ["save the rule"] false
             (CreateRule "sama@openai.com" "5% discount"))
    | _ =>
        VanillaSGR.Parsed
          (VanillaSGR.mkNextStep "remember" ["report"] true
             (ReportTaskCompletion ["saved the rule"] completed))
    end in
  let runs := VanillaSGR.execute chat ["first"; "second"; "third"] DB in
  VanillaSGR.outcome <$> runs
  = [VanillaSGR.Completed completed ["saved the rule"];
     VanillaSGR.Raised VanillaSGR.JSONDecodeError]
  ∧ ∃ run,
      last runs = Some run ∧ is_raised (VanillaSGR.outcome run) = true.
Proof.
  intros chat runs. split; [vm_compute; reflexivity|].
  destruct (execute_in_order chat ["first"; "second"; "third"] DB)
    as (_ & _ & _ & Hshort).
  apply Hshort. vm_compute. lia.
Defined.

(** ** The skeleton's [dispatch] *)

(** X16.  The [dispatch] of [src/schema_demo.py] never adds an invoice:
    whatever the action, the invoice ids in the store are the same after
    the call, and when the call raises the store is untouched. *)
Theorem skeleton_never_issues cmd db :
  Py.keys (invoices (SchemaDemo.dispatch cmd db).2) = Py.keys (invoices db)
  ∧ products (SchemaDemo.dispatch cmd db).2 = products db
  ∧ ∀ e, (SchemaDemo.dispatch cmd db).1 = inl e →
         (SchemaDemo.dispatch cmd db).2 = db.
Proof.
  destruct cmd as [? ? ? ?|?|email skus dp|invoice_id ?|? ?|? ?]; simpl;
    try done.
  - by destruct (price_loop (products db) skus 0%Q).
  - destruct (Py.get invoice_id (invoices db)) eqn:Hget; simpl; [|done].
    split; [|done]. by apply keys_set_present.
Qed.

Lemma skeleton_never_issues_witness :
  (SchemaDemo.dispatch (IssueInvoice "elon@x.com" ["SKU-210"] 10) DB).1
  = inl SchemaDemo.UnboundLocalError
  ∧ (SchemaDemo.dispatch (IssueInvoice "elon@x.com" ["SKU-210"] 10) DB).2
    = DB.
Proof.
  split; [reflexivity|].
  exact (proj2 (proj2 (skeleton_never_issues
                         (IssueInvoice "elon@x.com" ["SKU-210"] 10) DB))
           _ eq_refl).
Defined.

(** ** More on the schema translation *)

Section JsonMore.
Import Models.

Lemma get_map {V W} (f : V → W) (key : string) (d : list (string * V)) :
  Py.get key (map (λ '(k, v), (k, f v)) d) = f <$> Py.get key d.
Proof.
  induction d as [|[k v] d IH]; simpl; [done|]. by case_decide.
Qed.

Lemma get_app {V} (key : string) (d d' : list (string * V)) :
  Py.get key (d ++ d')
  = match Py.get key d with Some v => Some v | None => Py.get key d' end.
Proof.
  induction d as [|[k v] d IH]; simpl; [done|]. by case_decide.
Qed.

Lemma visit_value_keeps_strings : keeps_strings visit_value.
Proof. intros v text Hv. destruct v; simpl in Hv; congruence. Qed.

Lemma close_every_object_keeps_strings : keeps_strings close_every_object.
Proof. intros v text Hv. destruct v; simpl in Hv; congruence. Qed.

(** After a pass, no dictionary lacks the key. *)
Lemma lacks_after (f : json → json) entries :
  keeps_strings f →
  lacks_additional_properties
    (map (λ '(key, value), (key, f value)) entries
     ++ (if lacks_additional_properties entries then closed_entry else []))
  = false.
Proof.
  intros Hf. unfold lacks_additional_properties at 1.
  rewrite !get_app, !get_map.
  destruct (lacks_additional_properties entries) eqn:Hlacks.
  - unfold lacks_additional_properties in Hlacks.
    destruct (Py.get "type" entries) as [[]|]; try done. simpl.
    apply andb_true_iff in Hlacks as [_ Hnone%bool_decide_eq_true].
    rewrite Hnone. simpl. destruct (f (JStr s)); try done.
    apply andb_false_r.
  - simpl. unfold lacks_additional_properties in Hlacks.
    destruct (Py.get "type" entries) as [v|] eqn:Htype; simpl; [|done].
    destruct (f v) as [| | |s| |] eqn:Hfv; try done.
    apply Hf in Hfv as ->.
    apply andb_false_iff in Hlacks as [Hs|Hnone]; [by rewrite Hs|].
    apply bool_decide_eq_false in Hnone.
    destruct (Py.get "additionalProperties" entries); [|done].
    simpl. apply andb_false_r.
Qed.

Lemma visit_value_dict entries :
  visit_value (JDict entries) = ensure_no_additional_properties (JDict entries).
Proof. reflexivity. Qed.

Lemma ensure_idempotent j :
  visit_value (visit_value j) = visit_value j
  ∧ ensure_no_additional_properties (ensure_no_additional_properties j)
    = ensure_no_additional_properties j.
Proof.
  induction j as [| | | |items IH|entries IH] using json_ind; try done.
  - split; [|done]. simpl. f_equal. rewrite map_map.
    apply map_ext_Forall. eapply Forall_impl; [exact IH|].
    simpl. intros item [_ Hitem]. destruct item; try done.
  - assert (ensure_no_additional_properties
              (ensure_no_additional_properties (JDict entries))
            = ensure_no_additional_properties (JDict entries)) as Hdict.
    { rewrite (ensure_dict entries), ensure_dict.
      rewrite (lacks_after visit_value entries visit_value_keeps_strings).
      rewrite app_nil_r, map_app. do 2 f_equal.
      - rewrite map_map. apply map_ext_Forall.
        eapply Forall_impl; [exact IH|].
        intros [key value] [Hvalue _]. simpl in *. by rewrite Hvalue.
      - by destruct (lacks_additional_properties entries). }
    split; [|exact Hdict]. rewrite (visit_value_dict entries).
    rewrite (ensure_dict entries) in *. exact Hdict.
Qed.

Lemma forallb_map_holds {A B} (f : A → B) (c : B → bool) (l : list A) :
  Forall (λ x, c (f x) = true) l → forallb c (map f l) = true.
Proof.
  induction 1 as [|x l Hx _ IH]; simpl; [done|]. by rewrite Hx, IH.
Qed.

Lemma close_every_object_closed j : objects_closed (close_every_object j) = true.
Proof.
  induction j as [| | | |items IH|entries IH] using json_ind; try done.
  - simpl. by apply forallb_map_holds.
  - simpl.
    rewrite (lacks_after close_every_object entries
               close_every_object_keeps_strings). simpl.
    rewrite forallb_app. apply andb_true_iff. split.
    + apply forallb_map_holds. eapply Forall_impl; [exact IH|].
      by intros [key value].
    + by destruct (lacks_additional_properties entries).
Qed.

End JsonMore.

(** X17.  The schema translation is idempotent: translating a translated
    schema changes nothing more. *)
Theorem translation_idempotent j :
  Models.ensure_no_additional_properties
    (Models.ensure_no_additional_properties j)
  = Models.ensure_no_additional_properties j.
Proof. apply ensure_idempotent. Qed.

(** X18.  A schema dictionary that states [additionalProperties] itself,
    [true] included, keeps its statement: the translation adds no key to
    it and leaves the stated value as it is. *)
Theorem stated_additional_properties_kept entries b :
  Py.get "additionalProperties" entries = Some (Models.JBool b) →
  ∃ entries',
    Models.ensure_no_additional_properties (Models.JDict entries)
    = Models.JDict entries'
    ∧ Py.keys entries' = Py.keys entries
    ∧ Py.get "additionalProperties" entries' = Some (Models.JBool b).
Proof.
  intros Hget. eexists. rewrite ensure_dict.
  assert (Models.lacks_additional_properties entries = false) as ->.
  { unfold Models.lacks_additional_properties. rewrite Hget.
    destruct (Py.get "type" entries) as [[]|]; try done.
    simpl. apply andb_false_r. }
  rewrite app_nil_r. split; [reflexivity|]. split.
  - unfold Py.keys. rewrite <-list_fmap_compose.
    apply list_fmap_ext. by intros _ [key value] _.
  - by rewrite get_map, Hget.
Qed.

Lemma stated_additional_properties_kept_witness :
  let entries :=
    [("type", Models.JStr "object");
     ("additionalProperties", Models.JBool true);
     ("properties",
      Models.JDict
        [("extra", Models.JDict [("type", Models.JStr "object")])])] in
  Py.get "additionalProperties" entries = Some (Models.JBool true)
  ∧ ∃ entries',
      Models.ensure_no_additional_properties (Models.JDict entries)
      = Models.JDict entries'
      ∧ Py.keys entries' = ["type"; "additionalProperties"; "properties"]
      ∧ Py.get "additionalProperties" entries' = Some (Models.JBool true).
Proof.
  intros entries. split; [reflexivity|].
  exact (stated_additional_properties_kept entries true eq_refl).
Defined.

(** X19.  On a schema in which no list is an item of another list, the
    translation reaches its goal: in the result every dictionary of type
    ["object"], at any depth, has an [additionalProperties] key. *)
Theorem translation_closes_every_object entries :
  Models.lists_hold_no_list (Models.JDict entries) = true →
  objects_closed
    (Models.ensure_no_additional_properties (Models.JDict entries))
  = true.
Proof.
  intros Hflat.
  rewrite <-visit_value_dict, (visit_value_closes _ Hflat).
  apply close_every_object_closed.
Qed.

Lemma translation_closes_every_object_witness :
  let schema :=
    [("type", Models.JStr "object");
     ("properties",
      Models.JDict
        [("function",
          Models.JDict
            [("anyOf",
              Models.JList
                [Models.JDict [("type", Models.JStr "object")];
                 Models.JDict [("type", Models.JStr "object")]])])])] in
  Models.lists_hold_no_list (Models.JDict schema) = true
  ∧ objects_closed (Models.JDict schema) = false
  ∧ objects_closed
      (Models.ensure_no_additional_properties (Models.JDict schema))
    = true.
Proof.
  intros schema. split; [reflexivity|]. split; [reflexivity|].
  exact (translation_closes_every_object schema eq_refl).
Defined.

(** ** Choosing the provider *)

(** X20.  When [create_model_provider] returns a provider, the provider
    carries the API key found in the environment variable of its kind, a
    key that is not empty, and [get_model_name], called with the same
    argument, returns the model configured for that kind of provider or
    its default: [OPENAI_MODEL] or ["gpt-4o"] for OpenAI,
    [OPENROUTER_MODEL] or ["openai/gpt-4o"] for OpenRouter. *)
Theorem provider_and_model_agree lower environ provider_type provider :
  Models.create_model_provider lower environ provider_type = inr provider →
  match provider with
  | Models.OpenAIProvider api_key =>
      environ !! "OPENAI_API_KEY" = Some api_key
      ∧ api_key ≠ ""
      ∧ Models.get_model_name lower environ provider_type
        = Models.getenv_default environ "OPENAI_MODEL" "gpt-4o"
  | Models.OpenRouterProvider api_key =>
      environ !! "OPENROUTER_API_KEY" = Some api_key
      ∧ api_key ≠ ""
      ∧ Models.get_model_name lower environ provider_type
        = Models.getenv_default environ "OPENROUTER_MODEL" "openai/gpt-4o"
  end.
Proof.
  unfold Models.create_model_provider, Models.get_model_name, Models.getenv.
  repeat case_decide; try done.
  - destruct (environ !! "OPENAI_API_KEY") as [api_key|]; [|done].
    case_decide; [done|]. by intros [= <-].
  - destruct (environ !! "OPENROUTER_API_KEY") as [api_key|]; [|done].
    case_decide; [done|]. by intros [= <-].
Qed.

Lemma provider_and_model_agree_witness :
  let environ : gmap string string :=
    <["MODEL_PROVIDER" := "OpenRouter"]>
    (<["OPENROUTER_API_KEY" := "sk-or-v1"]>
    (<["OPENAI_MODEL" := "gpt-4o-mini"]> ∅)) in
  Models.create_model_provider lower_ascii environ None
  = inr (Models.OpenRouterProvider "sk-or-v1")
  ∧ Models.get_model_name lower_ascii environ None = "openai/gpt-4o".
Proof.
  intros environ.
  assert (Models.create_model_provider lower_ascii environ None
          = inr (Models.OpenRouterProvider "sk-or-v1")) as Hcreate
    by reflexivity.
  split; [exact Hcreate|].
  destruct (provider_and_model_agree lower_ascii environ None _ Hcreate)
    as (_ & _ & ->).
  reflexivity.
Defined.

(** X21.  [create_model_provider] fails in three ways only: the OpenAI key
    is missing or empty, the OpenRouter key is missing or empty, or the
    provider name is neither ["openai"] nor ["openrouter"] once
    lower-cased; in this last case the message quotes the name, and
    [get_model_name] does not fail with it but answers ["gpt-4o"]. *)
Theorem provider_errors lower environ provider_type message :
  Models.create_model_provider lower environ provider_type
  = inl (Models.mkValueError message) →
  let name := provider_name lower environ provider_type in
  (lower name = "openai"
   ∧ message = "OPENAI_API_KEY not found in environment variables"
   ∧ (environ !! "OPENAI_API_KEY" = None
      ∨ environ !! "OPENAI_API_KEY" = Some ""))
  ∨ (lower name ≠ "openai"
     ∧ lower name = "openrouter"
     ∧ message = "OPENROUTER_API_KEY not found in environment variables"
     ∧ (environ !! "OPENROUTER_API_KEY" = None
        ∨ environ !! "OPENROUTER_API_KEY" = Some ""))
  ∨ (lower name ≠ "openai"
     ∧ lower name ≠ "openrouter"
     ∧ message = "Unsupported provider: " +:+ name
     ∧ Models.get_model_name lower environ provider_type = "gpt-4o").
Proof.
  unfold Models.create_model_provider, Models.get_model_name, Models.getenv.
  fold (provider_name lower environ provider_type). simpl.
  set (name := provider_name lower environ provider_type).
  repeat case_decide.
  - destruct (environ !! "OPENAI_API_KEY") as [api_key|].
    + case_decide; [|done]. subst. intros [= <-]. left. auto.
    + intros [= <-]. left. auto.
  - destruct (environ !! "OPENROUTER_API_KEY") as [api_key|].
    + case_decide; [|done]. subst. intros [= <-]. right; left. auto.
    + intros [= <-]. right; left. auto.
  - intros [= <-]. right; right. auto.
Qed.

Lemma provider_errors_witness :
  let environ : gmap string string :=
    <["OPENAI_API_KEY" := ""]> (<["OPENROUTER_MODEL" := "x"]> ∅) in
  Models.create_model_provider lower_ascii environ (Some "Anthropic")
  = inl (Models.mkValueError "Unsupported provider: Anthropic")
  ∧ Models.get_model_name lower_ascii environ (Some "Anthropic") = "gpt-4o"
  ∧ Models.create_model_provider lower_ascii environ None
    = inl (Models.mkValueError
             "OPENAI_API_KEY not found in environment variables").
Proof.
  intros environ.
  assert (Models.create_model_provider lower_ascii environ (Some "Anthropic")
          = inl (Models.mkValueError "Unsupported provider: Anthropic"))
    as Hcreate by reflexivity.
  split; [exact Hcreate|]. split; [|reflexivity].
  destruct (provider_errors lower_ascii environ (Some "Anthropic") _ Hcreate)
    as [(Hname & _)|[(_ & Hname & _)|(_ & _ & _ & Hmodel)]].
  - vm_compute in Hname. discriminate Hname.
  - vm_compute in Hname. discriminate Hname.
  - exact Hmodel.
Defined.
